(** * owmeta-core: properties, property expressions and data sources

    A shallow embedding of
    - [owmeta_core/dataobject_property.py]: the class ordering of
      [ContextMappedPropertyClass], the [Property] value store
      ([set], [clear], [get], [_insert_value], [_remove_value]) and the
      [PropertyExpr] algebra ([__or__], [to_terms], [to_dict]);
    - [owmeta_core/datasource.py]: the value collection of
      [DataSource.__init__].

    Python objects that are mutated in place live in explicit stores; methods
    are state transformers that either return or raise. *)

From stdpp Require Import base gmap sets list strings.

(** ** Exceptions and the state-and-exception monad *)

Inductive exn :=
| ValueError (msg : string)
| AssertionError
| Exception_ (msg : string)
| PropertyExprError
| DuplicateAlsoException.

(** [Stuck] is not a Python outcome: it marks a loop model that was cut
    short or a reference to an object that does not exist, and is shown
    never to be produced from well-formed stores. *)
Inductive result (A : Type) :=
| Ok (a : A)
| Raise (e : exn)
| Stuck.
Arguments Ok {A} a.
Arguments Raise {A} e.
Arguments Stuck {A}.

Definition M (S A : Type) : Type := S → result A * S.

Definition ret {S A} (a : A) : M S A := λ s, (Ok a, s).

Definition raise {S A} (e : exn) : M S A := λ s, (Raise e, s).

Definition bind {S A B} (m : M S A) (k : A → M S B) : M S B :=
  λ s, match m s with
       | (Ok a, s') => k a s'
       | (Raise e, s') => (Raise e, s')
       | (Stuck, s') => (Stuck, s')
       end.

Definition gets {S A} (f : S → A) : M S A := λ s, (Ok (f s), s).

Definition modify {S} (f : S → S) : M S unit := λ s, (Ok tt, f s).

Notation "x <~ m ;; k" := (bind m (λ x, k))
  (at level 100, m at next level, right associativity).
Notation "m ;;> k" := (bind m (λ _, k))
  (at level 100, right associativity).

(** Python's [assert]. *)
Definition assert_ {S} (b : bool) : M S unit :=
  if b then ret tt else raise AssertionError.

(** Python's [list.remove(x)]: drops the first element equal to [x];
    [None] stands for the [ValueError] of an absent element. *)
Fixpoint list_remove `{EqDecision A} (x : A) (l : list A) : option (list A) :=
  match l with
  | [] => None
  | y :: l' => if decide (x = y) then Some l' else (y ::.) <$> list_remove x l'
  end.

Definition remove_msg : string := "list.remove(x): x not in list"%string.

(** ** The Property value store *)

Module PropertyStore.

Abbreviation ObjId := nat (only parsing).
Abbreviation PropId := nat (only parsing).
Abbreviation CtxId := nat (only parsing).

(** Modelled from the spec: [statement.py] is absent. A Statement is the
    quad (subject, property, object, context) and two Statements are equal
    when their four fields are; the context is [None] for a property that is
    bound to no context. Objects and properties are compared by identity. *)
Record Statement := mkStatement {
  subject : ObjId;
  property : PropId;
  object : ObjId;
  context : option CtxId
}.

#[global] Instance Statement_eq_dec : EqDecision Statement.
Proof. solve_decision. Defined.

#[global] Instance Statement_countable : Countable Statement.
Proof.
  refine (inj_countable'
            (λ s, (subject s, property s, object s, context s))
            (λ t, match t with (a, b, c, d) => mkStatement a b c d end) _).
  by intros [].
Defined.

(** Modelled from the spec: [graph_object.py], [property_value.py] and
    [variable.py] are absent. A GraphObject carries [owner_properties], the
    back-references to the Properties that hold it as a value, and its
    [defined] state; a PropertyValue wrapper also carries the wrapped
    scalar. *)
Record GraphObject := mkGraphObject {
  owner_properties : list PropId;
  defined : bool;
  value : option Z
}.

Definition new_PropertyValue (z : Z) : GraphObject :=
  {| owner_properties := []; defined := true; value := Some z |}.

Definition new_Variable : GraphObject :=
  {| owner_properties := []; defined := false; value := None |}.

(** What a caller may pass to [set]. *)
Inductive pyvalue :=
| PyNone
| PyScalar (z : Z)
| PyObject (o : ObjId).

(** The instance state of one Property: [self] is its identity, [_v] the
    Statements it holds (of every context), [_hdf] the per-context cache of
    [has_defined_value]. *)
Record Property := mkProperty {
  self : PropId;
  owner : ObjId;
  multiple : bool;
  _v : list Statement;
  _hdf : gmap (option CtxId) (option bool)
}.

(** The Property together with the objects it can reach: the heap of
    GraphObjects ([next_id] is the next fresh identity) and, modelled from
    the spec ([context.py] is absent), the Statement set owned by each
    Context. *)
Record Store := mkStore {
  prop : Property;
  heap : gmap ObjId GraphObject;
  next_id : ObjId;
  statements : gmap CtxId (gset Statement)
}.

Definition with_v (f : list Statement → list Statement) (st : Store) : Store :=
  let p := prop st in
  mkStore (mkProperty (self p) (owner p) (multiple p) (f (_v p)) (_hdf p))
          (heap st) (next_id st) (statements st).

Definition with_hdf (f : gmap (option CtxId) (option bool) →
                         gmap (option CtxId) (option bool)) (st : Store) : Store :=
  let p := prop st in
  mkStore (mkProperty (self p) (owner p) (multiple p) (_v p) (f (_hdf p)))
          (heap st) (next_id st) (statements st).

Definition with_heap (f : gmap ObjId GraphObject → gmap ObjId GraphObject)
    (st : Store) : Store :=
  mkStore (prop st) (f (heap st)) (next_id st) (statements st).

Definition with_statements (f : gmap CtxId (gset Statement) →
                                gmap CtxId (gset Statement)) (st : Store) : Store :=
  mkStore (prop st) (heap st) (next_id st) (f (statements st)).

(** [o.owner_properties]; an object that was never touched has none. *)
Definition owner_properties_of (h : gmap ObjId GraphObject) (o : ObjId) : list PropId :=
  from_option owner_properties [] (h !! o).

Definition set_owner_properties (o : ObjId) (l : list PropId)
    (h : gmap ObjId GraphObject) : gmap ObjId GraphObject :=
  let g := default new_Variable (h !! o) in
  <[o := mkGraphObject l (defined g) (value g)]> h.

(** Allocation of a new Python object. *)
Definition alloc (g : GraphObject) : M Store ObjId :=
  λ st, (Ok (next_id st),
         mkStore (prop st) (<[next_id st := g]> (heap st)) (S (next_id st))
                 (statements st)).

(** [v.owner_properties.append(self)] *)
Definition owner_properties_append (o : ObjId) : M Store unit :=
  λ st, (Ok tt,
         with_heap (set_owner_properties o
                      (owner_properties_of (heap st) o ++ [self (prop st)])) st).

(** [v.owner_properties.remove(self)] *)
Definition owner_properties_remove (o : ObjId) : M Store unit :=
  λ st, match list_remove (self (prop st)) (owner_properties_of (heap st) o) with
        | Some l => (Ok tt, with_heap (set_owner_properties o l) st)
        | None => (Raise (ValueError remove_msg), st)
        end.

(** [self._v.remove(x)] *)
Definition _v_remove (x : Statement) : M Store unit :=
  λ st, match list_remove x (_v (prop st)) with
        | Some l => (Ok tt, with_v (λ _, l) st)
        | None => (Raise (ValueError remove_msg), st)
        end.

(** [Context.add_statement], modelled from the spec: the Statement joins the
    Statement set the Context owns. *)
Definition add_statement (c : CtxId) (stmt : Statement) : M Store unit :=
  modify (with_statements (λ m, <[c := {[stmt]} ∪ default ∅ (m !! c)]> m)).

(** Every method takes [ctx], the context the Property is bound to
    ([self.context]); contextualized views of one Property share [_v]. *)

Definition has_value (ctx : option CtxId) (st : Store) : bool :=
  existsb (λ x, bool_decide (context x = ctx)) (_v (prop st)).

(** [values]: the objects of the Statements of the bound context; binding
    an object to a context does not change which object it is. *)
Definition values (ctx : option CtxId) (st : Store) : list ObjId :=
  object <$> filter (λ x, context x = ctx) (_v (prop st)).

Definition _insert_value (ctx : option CtxId) (v : ObjId) : M Store Statement :=
  p <~ gets prop ;;
  let stmt := mkStatement (owner p) (self p) v ctx in
  modify (with_hdf <[ctx := None]>) ;;>
  modify (with_v (λ l, l ++ [stmt])) ;;>
  owner_properties_append v ;;>
  ret stmt.

Definition _remove_value (ctx : option CtxId) (v : ObjId) : M Store unit :=
  p <~ gets prop ;;
  h <~ gets heap ;;
  assert_ (bool_decide (self p ∈ owner_properties_of h v)) ;;>
  modify (with_hdf <[ctx := None]>) ;;>
  owner_properties_remove v ;;>
  _v_remove (mkStatement (owner p) (self p) v ctx).

(** The [for x in self._v] loop of [clear]. Python's list iterator keeps an
    index [i] and re-reads the list, which the body shortens, at every
    step. *)
Fixpoint clear_loop (fuel i : nat) : M Store unit :=
  match fuel with
  | 0 => λ st, (Stuck, st)
  | S fuel' => λ st,
      match _v (prop st) !! i with
      | None => (Ok tt, st)
      | Some x =>
          (assert_ (bool_decide
                      (self (prop st) ∈ owner_properties_of (heap st) (object x))) ;;>
           owner_properties_remove (object x) ;;>
           _v_remove x ;;>
           clear_loop fuel' (S i)) st
      end
  end.

Definition clear : M Store unit :=
  modify (with_hdf (λ _, ∅)) ;;>
  n <~ gets (λ st, length (_v (prop st))) ;;
  clear_loop (S n) 0.

Definition invalid_msg : string :=
  "It is not permitted to declare a property to have value the None"%string.

(** [Property.set] from the test of [multiple] on; [v] is graph-aware by
    then. *)
Definition set_value (ctx : option CtxId) (v : ObjId) : M Store Statement :=
  m <~ gets (λ st, multiple (prop st)) ;;
  (if negb m then clear else ret tt) ;;>
  stmt <~ _insert_value ctx v ;;
  match ctx with
  | Some c => add_statement c stmt
  | None => ret tt
  end ;;>
  ret stmt.

(** [Property.set]: [None] is refused, a value without [idl] is wrapped in a
    new [ContextualizedPropertyValue]. *)
Definition set (ctx : option CtxId) (v : pyvalue) : M Store Statement :=
  match v with
  | PyNone => raise (ValueError invalid_msg)
  | PyScalar z => v' <~ alloc (new_PropertyValue z) ;; set_value ctx v'
  | PyObject o => set_value ctx o
  end.

Definition type_msg : string :=
  "An ObjectProperty only accepts GraphObject instances."%string.

(** [ObjectProperty.set]: the [isinstance(v, GraphObject)] guard comes before
    the call to the inherited [set]; the mixins that this call passes
    through on its way to [Property.set] are not part of the source. *)
Definition ObjectProperty_set (ctx : option CtxId) (v : pyvalue) : M Store Statement :=
  match v with
  | PyObject _ => set ctx v
  | _ => raise (Exception_ type_msg)
  end.

(** The classes whose [set] is in the source in full. *)
Inductive property_class :=
| Property_class
| ObjectProperty_class.

(** [p.set(v)] as Python dispatches it on the class of [p]. *)
Definition set_method (k : property_class) : option CtxId → pyvalue → M Store Statement :=
  match k with
  | Property_class => set
  | ObjectProperty_class => ObjectProperty_set
  end.

Section Get.

(** The RDF graph and the querier are collaborators whose code is not in
    the source: [triples g s p] lists the objects of
    [g.triples((s, p.link, None))] and [GraphObjectQuerier g st v] is the
    answer of [GraphObjectQuerier(v, g, ...)()], which reads the store. *)
Context {Graph Term : Type} `{EqDecision Term}.
Variable triples : Graph → ObjId → PropId → list Term.
Variable GraphObjectQuerier : Graph → Store → ObjId → list Term.

Definition get (ctx : option CtxId) (rdf : option Graph) : M Store (list Term) :=
  match rdf with
  | None => ret []
  | Some g =>
      p <~ gets prop ;;
      h <~ gets heap ;;
      if from_option defined false (h !! owner p) then
        ret (remove_dups (triples g (owner p) (self p)))
      else
        v <~ alloc new_Variable ;;
        _insert_value ctx v ;;>
        results <~ gets (λ st, GraphObjectQuerier g st v) ;;
        _remove_value ctx v ;;>
        ret results
  end.

End Get.

(** A Property that holds nothing yet, with an owner and two candidate
    values on the heap. *)
Definition new_Property (self owner : nat) (multiple : bool) : Property :=
  mkProperty self owner multiple [] ∅.

Definition blank : GraphObject :=
  {| owner_properties := []; defined := true; value := None |}.

Definition example_store (multiple : bool) : Store :=
  mkStore (new_Property 7 0 multiple)
          (<[0 := new_Variable]> (<[1 := blank]> (<[2 := blank]> ∅)))
          3 ∅.

(** Running a method and keeping the store only. *)
Definition exec {A} (m : M Store A) (st : Store) : Store := (m st).2.

(** [p.set(a); p.set(b)] on a Property with [multiple = True], bound to no
    context. *)
Definition two_values : Store :=
  exec (set None (PyObject 2)) (exec (set None (PyObject 1)) (example_store true)).

(** [p.set(a)] through the view of context 2 of a Property with
    [multiple = False]. *)
Definition held_elsewhere : Store :=
  exec (set (Some 2) (PyObject 1)) (example_store false).

(** The object a Statement made by [set] points to: the object passed in,
    or the PropertyValue wrapper that [set] allocates for a scalar. *)
Definition stored_object (st : Store) (v : pyvalue) : ObjId :=
  match v with
  | PyObject o => o
  | _ => next_id st
  end.

(** [Context.add_statement(stmt)] on the Statement sets. *)
Definition statements_with (ctx : option CtxId) (stmt : Statement)
    (m : gmap CtxId (gset Statement)) : gmap CtxId (gset Statement) :=
  match ctx with
  | Some c => <[c := {[stmt]} ∪ default ∅ (m !! c)]> m
  | None => m
  end.

(** The elements at the positions 1, 3, 5, ... of a list. *)
Fixpoint every_second {A} (l : list A) : list A :=
  match l with
  | _ :: y :: l' => y :: every_second l'
  | _ => []
  end.

(** A method keeps an invariant of the store, whatever its outcome. *)
Definition preserves {A} (I : Store → Prop) (m : M Store A) : Prop :=
  ∀ st, I st → I (m st).2.

(** The Statements held point to existing objects, and so does [o]. *)
Definition objects_exist (o : ObjId) (st : Store) : Prop :=
  o < next_id st ∧ ∀ x, x ∈ _v (prop st) → object x < next_id st.

(** [x.object.defined] *)
Definition defined_of (h : gmap ObjId GraphObject) (o : ObjId) : bool :=
  from_option defined false (h !! o).

(** [has_defined_value]: the cached answer if there is one; otherwise the
    Statements of the bound context are searched for a defined object, and
    [True], never [False], is cached. *)
Definition has_defined_value (ctx : option CtxId) : M Store bool :=
  hdf <~ gets (λ st, default None (_hdf (prop st) !! ctx)) ;;
  match hdf with
  | Some b => ret b
  | None =>
      found <~ gets (λ st, existsb (λ x, bool_decide (context x = ctx) &&
                                         defined_of (heap st) (object x))
                                   (_v (prop st))) ;;
      if found then modify (with_hdf <[ctx := Some true]>) ;;> ret true
      else ret false
  end.

(** [defined_values] and [onedef]. *)
Definition defined_values (ctx : option CtxId) (st : Store) : list ObjId :=
  object <$> filter (λ x, defined_of (heap st) (object x) = true ∧ context x = ctx)
                    (_v (prop st)).

Definition onedef (ctx : option CtxId) (st : Store) : option ObjId :=
  head (defined_values ctx st).

(** The store right after [_insert_value] and [add_statement] in [set]. *)
Definition inserted (ctx : option CtxId) (v : ObjId) (st : Store) : Store :=
  let p := prop st in
  let stmt := mkStatement (owner p) (self p) v ctx in
  mkStore (mkProperty (self p) (owner p) (multiple p) (_v p ++ [stmt])
                      (<[ctx := None]> (_hdf p)))
          (set_owner_properties v (owner_properties_of (heap st) v ++ [self p])
                                (heap st))
          (next_id st) (statements_with ctx stmt (statements st)).

(** Every object lists the Property among its [owner_properties] as often
    as the Property holds a Statement on it. *)
Definition backrefs_counted (st : Store) : Prop :=
  ∀ o, length (filter (λ p, p = self (prop st)) (owner_properties_of (heap st) o))
       = length (filter (λ x, object x = o) (_v (prop st))).

(** A cached answer of [has_defined_value] is [True] and is backed by a
    Statement of that context on a defined object. *)
Definition hdf_coherent (st : Store) : Prop :=
  ∀ c b, _hdf (prop st) !! c = Some (Some b) →
         b = true ∧
         ∃ x, x ∈ _v (prop st) ∧ context x = c ∧ defined_of (heap st) (object x) = true.

(** [held_elsewhere] after [has_defined_value()] was asked, and answered
    [True], through the view of context 2. *)
Definition cached_store : Store :=
  exec (has_defined_value (Some 2)) held_elsewhere.

End PropertyStore.

(** ** The ordering of property classes *)

Module ClassOrder.

(** A class as [issubclass] and [__lt__] see it: its identity, its
    [__name__] and its method resolution order, the list of the identities
    of the class itself and of its ancestors. *)
Record pyclass := mkClass {
  class_id : nat;
  __name__ : string;
  __mro__ : list nat
}.

(** [issubclass(c, d)]: [d] occurs in the resolution order of [c]. *)
Definition issubclass (c d : pyclass) : bool :=
  bool_decide (class_id d ∈ __mro__ c).

(** [ContextMappedPropertyClass.__lt__]; [<] on [str] is [String.ltb]. *)
Definition __lt__ (self other : pyclass) : bool :=
  if issubclass other self && negb (issubclass self other) then true
  else if eqb (issubclass self other) (issubclass other self)
       then String.ltb (__name__ self) (__name__ other)
       else false.

(** [a] is an ancestor of [b] and not vice versa. *)
Definition strict_ancestor (a b : pyclass) : Prop :=
  issubclass b a = true ∧ issubclass a b = false.

(** Lexicographic precedence of names, character codes compared as
    numbers. *)
Inductive lex_lt : string → string → Prop :=
| lex_lt_empty c t : lex_lt EmptyString (String c t)
| lex_lt_head c d s t :
    (Ascii.N_of_ascii c < Ascii.N_of_ascii d)%N → lex_lt (String c s) (String d t)
| lex_lt_tail c s t : lex_lt s t → lex_lt (String c s) (String c t).

(** Three classes of the source: [Property] and its subclasses
    [ObjectProperty] and [DatatypeProperty], neither of which is an ancestor
    of the other; 0 is the identity of [object]. *)
Definition Property : pyclass := mkClass 1 "Property" [1; 0].
Definition ObjectProperty : pyclass := mkClass 2 "ObjectProperty" [2; 1; 0].
Definition DatatypeProperty : pyclass := mkClass 3 "DatatypeProperty" [3; 1; 0].

(** A class that a user derives from [ObjectProperty] and calls [Alpha]. *)
Definition Alpha : pyclass := mkClass 4 "Alpha" [4; 2; 1; 0].

(** Neither class is a subclass of the other. *)
Definition unrelated (a b : pyclass) : Prop :=
  issubclass a b = false ∧ issubclass b a = false.

End ClassOrder.

(** ** Property expressions *)

Module PropertyExpr.

Abbreviation PropId := nat (only parsing).
Abbreviation ExprId := nat (only parsing).

Section Expr.

(** [Term] stands for the RDF nodes ([rdflib.term.Node]). *)
Context {Term : Type} `{Countable Term}.

Definition Triple : Type := Term * Term * Term.

(** What the properties and the RDF graph answer at the time of a call:
    [prop.get_terms()], [prop.owner.identifier], [prop.link] and
    [rdf.triples_choices((terms, link, None))]. *)
Record World := mkWorld {
  get_terms : PropId → list Term;
  owner_identifier : PropId → Term;
  link : PropId → Term;
  triples_choices : list Term → Term → list Triple
}.

(** The pair (terms_provider, triples_provider) of an expression. The
    file builds three kinds: the defaults [_compute_terms] and
    [_make_triples] of a root expression, the two [itertools.chain]
    closures of [__or__], and the two closures of
    [_create_sub_expression]. *)
Inductive provider :=
| root (props : list PropId)
| chain (a b : provider)
| sub_expression (parent : provider) (lnk : Term).

Fixpoint terms_provider (w : World) (pr : provider) : list Term :=
  match pr with
  | root props => concat (get_terms w <$> props)
  | chain a b => terms_provider w a ++ terms_provider w b
  | sub_expression parent lnk =>
      (λ c : Triple, c.2) <$> triples_choices w (terms_provider w parent) lnk
  end.

Fixpoint triples_provider (w : World) (pr : provider) : list Triple :=
  match pr with
  | root props =>
      prop ← props;
      (λ term, (owner_identifier w prop, link w prop, term)) <$> get_terms w prop
  | chain a b => triples_provider w a ++ triples_provider w b
  | sub_expression parent lnk =>
      triples_choices w (terms_provider w parent) lnk
  end.

(** The value of [self.dict]: subject to object when it was built with
    [multiple=False], subject to set of objects otherwise. *)
Inductive pydict :=
| SingleDict (d : gmap Term Term)
| MultiDict (d : gmap Term (gset Term)).

Record PropertyExpr := mkExpr {
  props : list PropId;
  providers : provider;
  terms : option (list Term);
  dict : option pydict;
  combos : list ExprId
}.

(** [PropertyExpr.__init__] *)
Definition new_PropertyExpr (props : list PropId) (pr : provider) : PropertyExpr :=
  mkExpr props pr None None [].

Definition to_terms (w : World) (e : PropertyExpr) : list Term * PropertyExpr :=
  match terms e with
  | Some ts => (ts, e)
  | None =>
      let ts := terms_provider w (providers e) in
      (ts, mkExpr (props e) (providers e) (Some ts) (dict e) (combos e))
  end.

(** The loop of [to_dict] for [multiple=False]. *)
Fixpoint to_dict_single (triples : list Triple) (res : gmap Term Term)
    : result (gmap Term Term) :=
  match triples with
  | [] => Ok res
  | (s, p, o) :: triples' =>
      match res !! s with
      | Some current_value =>
          if decide (current_value ≠ o) then Raise PropertyExprError
          else to_dict_single triples' (<[s := o]> res)
      | None => to_dict_single triples' (<[s := o]> res)
      end
  end.

(** The loop of [to_dict] for [multiple=True]. *)
Fixpoint to_dict_multiple (triples : list Triple) (res : gmap Term (gset Term))
    : gmap Term (gset Term) :=
  match triples with
  | [] => res
  | (s, p, o) :: triples' =>
      match res !! s with
      | None => to_dict_multiple triples' (<[s := {[o]}]> res)
      | Some values => to_dict_multiple triples' (<[s := values ∪ {[o]}]> res)
      end
  end.

Definition to_dict (w : World) (multiple : bool) (e : PropertyExpr)
    : result pydict * PropertyExpr :=
  match dict e with
  | Some d => (Ok d, e)
  | None =>
      let triples := triples_provider w (providers e) in
      if multiple then
        let res := MultiDict (to_dict_multiple triples ∅) in
        (Ok res, mkExpr (props e) (providers e) (terms e) (Some res) (combos e))
      else
        match to_dict_single triples ∅ with
        | Ok res =>
            (Ok (SingleDict res),
             mkExpr (props e) (providers e) (terms e) (Some (SingleDict res)) (combos e))
        | Raise ex => (Raise ex, e)
        | Stuck => (Stuck, e)
        end
  end.

(** Expressions are objects: [__or__] compares them by identity and
    appends to their [combos], and every Property caches its root
    expression in [_expr]. *)
Record ExprStore := mkExprStore {
  exprs : gmap ExprId PropertyExpr;
  _expr : gmap PropId ExprId;
  next_expr : ExprId
}.

Definition new_expr (e : PropertyExpr) : M ExprStore ExprId :=
  λ σ, (Ok (next_expr σ),
        mkExprStore (<[next_expr σ := e]> (exprs σ)) (_expr σ) (S (next_expr σ))).

Definition read_expr (i : ExprId) : M ExprStore PropertyExpr :=
  λ σ, match exprs σ !! i with
       | Some e => (Ok e, σ)
       | None => (Stuck, σ)
       end.

Definition write_expr (i : ExprId) (e : PropertyExpr) : M ExprStore unit :=
  modify (λ σ, mkExprStore (<[i := e]> (exprs σ)) (_expr σ) (next_expr σ)).

(** [Property.expr] *)
Definition expr (p : PropId) : M ExprStore ExprId :=
  cached <~ gets (λ σ, _expr σ !! p) ;;
  match cached with
  | Some i => ret i
  | None =>
      i <~ new_expr (new_PropertyExpr [p] (root [p])) ;;
      modify (λ σ, mkExprStore (exprs σ) (<[p := i]> (_expr σ)) (next_expr σ)) ;;>
      ret i
  end.

Definition combos_append (i res : ExprId) : M ExprStore unit :=
  e <~ read_expr i ;;
  write_expr i (mkExpr (props e) (providers e) (terms e) (dict e) (combos e ++ [res])).

(** [PropertyExpr.__or__] *)
Definition __or__ (self other : ExprId) : M ExprStore ExprId :=
  if decide (self = other) then ret self
  else
    a <~ read_expr self ;;
    b <~ read_expr other ;;
    res <~ new_expr (new_PropertyExpr (props a ++ props b)
                                      (chain (providers a) (providers b))) ;;
    combos_append self res ;;>
    combos_append other res ;;>
    ret res.

(** [e.to_terms()] and [e.to_dict(multiple)] on a stored expression. *)
Definition to_terms_of (w : World) (i : ExprId) : M ExprStore (list Term) :=
  e <~ read_expr i ;;
  let r := to_terms w e in
  write_expr i r.2 ;;>
  ret r.1.

Definition to_dict_of (w : World) (multiple : bool) (i : ExprId) : M ExprStore pydict :=
  e <~ read_expr i ;;
  let r := to_dict w multiple e in
  write_expr i r.2 ;;>
  (λ σ, (r.1, σ)).

Definition empty_store : ExprStore := mkExprStore ∅ ∅ 0.

(** Some subject has two distinct objects among the triples. *)
Definition two_objects (triples : list Triple) : Prop :=
  ∃ s p1 o1 p2 o2, (s, p1, o1) ∈ triples ∧ (s, p2, o2) ∈ triples ∧ o1 ≠ o2.

(** The store is as the methods leave it: identities below [next_expr],
    and the [_expr] of a Property is a root expression over it. *)
Definition wf_store (σ : ExprStore) : Prop :=
  (∀ i, is_Some (exprs σ !! i) → i < next_expr σ) ∧
  (∀ p i, _expr σ !! p = Some i →
          ∃ e, exprs σ !! i = Some e ∧ providers e = root [p]).

(** The terms that [p.expr] has memoized, if any, are those that [p]
    yields in the world [w]. *)
Definition memo_current (w : World) (σ : ExprStore) (p : PropId) : Prop :=
  ∀ i e ts, _expr σ !! p = Some i → exprs σ !! i = Some e →
            terms e = Some ts → ts = terms_provider w (root [p]).

(** [(p1.expr | p2.expr).to_terms()] *)
Definition union_terms (w : World) (p1 p2 : PropId) : M ExprStore (list Term) :=
  e1 <~ expr p1 ;;
  e2 <~ expr p2 ;;
  u <~ __or__ e1 e2 ;;
  to_terms_of w u.

(** [d.get(s)] read as a set: no objects where [s] is not a key. *)
Definition objects_at (d : gmap Term (gset Term)) (s : Term) : gset Term :=
  default ∅ (d !! s).

(** The dict that [to_dict(multiple=True)] builds for a provider. *)
Definition multi_dict (w : World) (pr : provider) : gmap Term (gset Term) :=
  to_dict_multiple (triples_provider w pr) ∅.

(** [_create_sub_expression]: a new expression for [sub_prop], whose
    providers feed the terms of [self] and the link of [sub_prop] to
    [triples_choices]. *)
Definition _create_sub_expression (self : ExprId) (sub_prop : PropId) (lnk : Term)
    : M ExprStore ExprId :=
  e <~ read_expr self ;;
  new_expr (new_PropertyExpr [sub_prop] (sub_expression (providers e) lnk)).

(** The expressions together with their [created_sub_expressions], for the
    keys [('link', link)] that [property] uses: the expression and the link
    are mapped to the sub-expression. *)
Record SubStore := mkSubStore {
  expr_store : ExprStore;
  created_sub_expressions : gmap (ExprId * Term) ExprId
}.

Definition lift {A} (m : M ExprStore A) : M SubStore A :=
  λ s, let r := m (expr_store s) in
       (r.1, mkSubStore r.2 (created_sub_expressions s)).

(** [PropertyExpr.property(property_class)], where [lnk] is
    [property_class.link]. *)
Definition property (self : ExprId) (property_class : PropId) (lnk : Term)
    : M SubStore ExprId :=
  cached <~ gets (λ s, created_sub_expressions s !! (self, lnk)) ;;
  match cached with
  | Some res => ret res
  | None =>
      res <~ lift (_create_sub_expression self property_class lnk) ;;
      modify (λ s, mkSubStore (expr_store s)
                              (<[(self, lnk) := res]> (created_sub_expressions s))) ;;>
      ret res
  end.



(** [(a | b).to_dict(multiple=True)] on two stored expressions. *)
Definition union_dict (w : World) (self other : ExprId) : M ExprStore pydict :=
  u <~ __or__ self other ;;
  to_dict_of w true u.

End Expr.

(** A world over numbered terms: the properties 1 and 2 both yield the term
    5, and property 3, owned by the subject 10 like property 1, yields 6. *)
Definition example_world : World (Term := nat) :=
  mkWorld (λ p, match p with 1 | 2 => [5] | 3 => [6] | _ => [] end)
          (λ p, match p with 1 | 3 => 10 | _ => 11 end)
          (λ p, 20)
          (λ _ _, []).

(** The same graph after more was stored: property 1 now yields 5 and 7. *)
Definition later_world : World (Term := nat) :=
  mkWorld (λ p, match p with 1 => [5; 7] | 2 => [5] | 3 => [6] | _ => [] end)
          (λ p, match p with 1 | 3 => 10 | _ => 11 end)
          (λ p, 20)
          (λ _ _, []).

(** [p1.expr | p3.expr], before any call on it. *)
Definition example_union : PropertyExpr (Term := nat) :=
  new_PropertyExpr [1; 3] (chain (root [1]) (root [3])).

(** [p1.expr], before any call on it. *)
Definition example_root : PropertyExpr (Term := nat) :=
  new_PropertyExpr [1] (root [1]).

(** The store after [p1.expr] and [p3.expr] were accessed. *)
Definition two_roots : ExprStore (Term := nat) :=
  ((expr 1 ;;> expr 3) empty_store).2.


End PropertyExpr.

(** ** Data sources *)

Module DataSource.

Section Init.

(** [Value] stands for the Python values given to the fields; Python's
    [None] is the [None] of [option Value]. *)
Context {Value : Type}.

Abbreviation pyval := (option Value) (only parsing).

(** [py_ne x y] is Python's [x != y] on values other than [None]. For most
    values it is the negation of equality; it is not for a NaN, which
    differs from itself. *)
Variable py_ne : Value → Value → bool.

(** The call of [super(DataSource, self).__init__] with [parent_kwargs]:
    the constructor of [DataObject] is not part of the source. It is given
    the keyword arguments that name no field and returns, [None], or raises,
    for one the [TypeError] for a keyword argument it does not take. *)
Variable DataObject___init__ : gmap string pyval → option exn.

(** [x != y] where [None] may occur: [None] differs from every other
    value. *)
Definition pyval_ne (x y : pyval) : bool :=
  match x, y with
  | Some a, Some b => py_ne a b
  | None, None => false
  | _, _ => true
  end.

(** An [Informational]; of each entry of [also] only the [name] is read by
    [DataSource.__init__], so [also] lists these names. *)
Record Informational := mkInformational {
  name : string;
  default_value : pyval;
  default_override : pyval;
  also : list string
}.

(** [OrderedDict(pairs)]: a repeated key keeps its first position and
    takes the last value. *)
Fixpoint OrderedDict_set {V} (k : string) (v : V) (d : list (string * V))
    : list (string * V) :=
  match d with
  | [] => [(k, v)]
  | (k', v') :: d' =>
      if decide (k = k') then (k, v) :: d' else (k', v') :: OrderedDict_set k v d'
  end.

Definition OrderedDict {V} (pairs : list (string * V)) : list (string * V) :=
  foldl (λ d kv, OrderedDict_set kv.1 kv.2 d) [] pairs.

(** [vals = defaultdict(dict)]: field name to a dict with the keys
    ['i'], ['e'], ['a'], ['d']. *)
Abbreviation valsdict := (gmap string (gmap string pyval)) (only parsing).

(** [vals[n][k] = v] *)
Definition vals_set (n k : string) (v : pyval) (vals : valsdict) : valsdict :=
  <[n := <[k := v]> (default ∅ (vals !! n))]> vals.

(** [d.setdefault(k, v)]: the value returned and the dict afterwards. *)
Definition setdefault (k : string) (v : pyval) (d : gmap string pyval)
    : pyval * gmap string pyval :=
  match d !! k with
  | Some x => (x, d)
  | None => (v, <[k := v]> d)
  end.

(** One round of [for also in inf.also]; [v is not None] is tested first
    and short-circuits the access to [vals]. *)
Definition also_step (v : pyval) (vals : valsdict) (also_name : string)
    : result valsdict :=
  match v with
  | None => Ok vals
  | Some _ =>
      let r := setdefault "a" v (default ∅ (vals !! also_name)) in
      if pyval_ne r.1 v then Raise DuplicateAlsoException
      else Ok (<[also_name := r.2]> vals)
  end.

Fixpoint also_loop (v : pyval) (alsos : list string) (vals : valsdict)
    : result valsdict :=
  match alsos with
  | [] => Ok vals
  | a :: alsos' =>
      match also_step v vals a with
      | Ok vals' => also_loop v alsos' vals'
      | r => r
      end
  end.

(** The value [v] a field passes on to its also-names: the keyword
    argument if it is not [None], the field's [default_value] otherwise. *)
Definition passed_value (new_kwargs : gmap string pyval) (n : string)
    (inf : Informational) : pyval :=
  match default None (new_kwargs !! n) with
  | Some v => Some v
  | None => default_value inf
  end.

(** The body of [for n, inf in self.info_fields.items()]. *)
Definition field_step (new_kwargs : gmap string pyval) (vals : valsdict)
    (n : string) (inf : Informational) : result valsdict :=
  let v := default None (new_kwargs !! n) in
  let vals1 := match v with
               | Some _ => vals_set n "i" v vals
               | None => vals
               end in
  let v := passed_value new_kwargs n inf in
  let vals2 := match default_override inf with
               | Some _ => vals_set n "e" (default_override inf) vals1
               | None => vals1
               end in
  let vals3 := vals_set n "d" (default_value inf) vals2 in
  also_loop v (also inf) vals3.

Fixpoint fields_loop (new_kwargs : gmap string pyval)
    (fields : list (string * Informational)) (vals : valsdict) : result valsdict :=
  match fields with
  | [] => Ok vals
  | (n, inf) :: fields' =>
      match field_step new_kwargs vals n inf with
      | Ok vals' => fields_loop new_kwargs fields' vals'
      | r => r
      end
  end.

(** [self.info_fields] of an instance whose class has [class_info_fields]. *)
Definition info_fields (class_info_fields : list Informational)
    : list (string * Informational) :=
  OrderedDict ((λ i, (name i, i)) <$> class_info_fields).

(** The keyword arguments that name a field, [new_kwargs], and the others,
    [parent_kwargs]. *)
Definition new_kwargs_of (fields : list (string * Informational))
    (kwargs : gmap string pyval) : gmap string pyval :=
  filter (λ kv, kv.1 ∈ fields.*1) kwargs.

Definition parent_kwargs_of (fields : list (string * Informational))
    (kwargs : gmap string pyval) : gmap string pyval :=
  filter (λ kv, kv.1 ∉ fields.*1) kwargs.

(** [DataSource.__init__] up to the end of its first loop, where [vals] is
    complete; [DuplicateAlsoException] is raised nowhere else. The
    constructor of the parent class runs before the loop, and what it
    raises ends the construction. *)
Definition __init___vals (class_info_fields : list Informational)
    (kwargs : gmap string pyval) : result valsdict :=
  let fields := info_fields class_info_fields in
  let parent_kwargs := parent_kwargs_of fields kwargs in
  let new_kwargs := new_kwargs_of fields kwargs in
  match DataObject___init__ parent_kwargs with
  | Some e => Raise e
  | None => fields_loop new_kwargs fields ∅
  end.

(** In the words of the specification: the field [n] supplies the non-null
    value [v] when [v] is given for [n] as a keyword argument or, failing
    a keyword argument other than [None], when [v] is the default value of
    the field. *)
Definition supplies (kwargs : gmap string pyval) (n : string)
    (inf : Informational) (v : Value) : Prop :=
  kwargs !! n = Some (Some v) ∨
  ((kwargs !! n = None ∨ kwargs !! n = Some None) ∧ default_value inf = Some v).

(** In the words of the specification: two alias sources, fields that name
    the same [target] in their [also], supply differing non-null values. *)
Definition also_conflict (class_info_fields : list Informational)
    (kwargs : gmap string pyval) : Prop :=
  let fields := info_fields class_info_fields in
  ∃ n1 inf1 n2 inf2 target v1 v2,
    (n1, inf1) ∈ fields ∧ (n2, inf2) ∈ fields ∧
    target ∈ also inf1 ∧ target ∈ also inf2 ∧
    supplies kwargs n1 inf1 v1 ∧
    supplies kwargs n2 inf2 v2 ∧
    v1 ≠ v2.

(** [vals[t].get('a')], where [vals[t]] may not exist yet. *)
Definition a_slot (vals : valsdict) (t : string) : option pyval :=
  default ∅ (vals !! t) !! "a".

(** The (also-name, value) pairs that the fields pass on, in the order of
    the two nested loops. *)
Definition passed_on (new_kwargs : gmap string pyval)
    (fields : list (string * Informational)) : list (string * Value) :=
  f ← fields;
  match passed_value new_kwargs f.1 f.2 with
  | Some v => (λ t, (t, v)) <$> also f.2
  | None => []
  end.

(** Two pairs for one also-name differ in their value. *)
Definition clash (pairs : list (string * Value)) : Prop :=
  ∃ t v1 v2, (t, v1) ∈ pairs ∧ (t, v2) ∈ pairs ∧ v1 ≠ v2.

(** The ['a'] entries of [vals] record exactly the pairs of [pairs]. *)
Definition records (vals : valsdict) (pairs : list (string * Value)) : Prop :=
  (∀ t x, a_slot vals t = Some x → ∃ v, x = Some v ∧ (t, v) ∈ pairs) ∧
  (∀ t v, (t, v) ∈ pairs → a_slot vals t = Some (Some v)).

(** [vals[n].get(k)], where [vals[n]] may not exist. *)
Definition slot (vals : valsdict) (n k : string) : option pyval :=
  default ∅ (vals !! n) !! k.

(** The value that the second loop of [__init__] gives to a field:
    [vl.get('i', vl.get('e', vl.get('a', vl['d'])))]. The arguments are
    evaluated first, so that a missing ['d'] is a [KeyError], here [None],
    whatever else [vl] holds. *)
Definition chosen_value (vl : gmap string pyval) : option pyval :=
  d ← vl !! "d";
  Some (default (default (default d (vl !! "a")) (vl !! "e")) (vl !! "i")).

(** What [__init__] leaves in [vals[n]] for the keys ['i'], ['e'] and ['d']
    of a field. *)
Definition own_slots (new_kwargs : gmap string pyval) (n : string)
    (inf : Informational) (vals : valsdict) : Prop :=
  slot vals n "i" = match default None (new_kwargs !! n) with
                    | Some v => Some (Some v)
                    | None => None
                    end ∧
  slot vals n "e" = match default_override inf with
                    | Some v => Some (Some v)
                    | None => None
                    end ∧
  slot vals n "d" = Some (default_value inf).

(** The first of the values that is not [None]. *)
Fixpoint first_given (vs : list pyval) : pyval :=
  match vs with
  | [] => None
  | Some v :: _ => Some v
  | None :: vs' => first_given vs'
  end.

End Init.

(** [FormatUtil.collect_values(attr, stored)], given what [attr.get()] yields
    and what [attr.defined_values] is. *)
Definition collect_values {A} `{EqDecision A} (get : list A) (defined_values : list A)
    (stored : bool) : list A :=
  if stored then
    foldl (λ attr_vals x, if decide (x ∈ attr_vals) then attr_vals else attr_vals ++ [x])
          [] get
  else defined_values.

(** [!=] on integers. *)
Definition nat_ne (x y : nat) : bool := negb (x =? y).

(** A [DataObject.__init__] that takes whatever it is given. *)
Definition accepting {Value} : gmap string (option Value) → option exn :=
  λ _, None.

(** A class with the fields [a], [b] and [c]: [a] and [b] both pass their
    value on to [c]; [a] has the default 1. *)
Definition abc_fields : list (Informational (Value := nat)) :=
  [ mkInformational "a" (Some 1) None ["c"];
    mkInformational "b" None None ["c"];
    mkInformational "c" None None [] ].

(** [vals] at the end of the first loop of [__init__] for the class above,
    constructed without arguments. *)
Definition abc_vals : gmap string (gmap string (option nat)) :=
  match __init___vals nat_ne accepting abc_fields ∅ with
  | Ok vals => vals
  | _ => ∅
  end.

(** Python floats as far as [!=] goes: a number, or NaN, which differs from
    every float, itself included. *)
Inductive pyfloat :=
| Num (z : Z)
| NaN.

Definition float_ne (x y : pyfloat) : bool :=
  match x, y with
  | Num a, Num b => negb (a =? b)%Z
  | _, _ => true
  end.

(** A class with one alias source: [a] passes its value on to [c]. *)
Definition ac_fields : list (Informational (Value := pyfloat)) :=
  [ mkInformational "a" None None ["c"];
    mkInformational "c" None None [] ].

End DataSource.

(** * Properties of the Property value store *)

Section PropertyStoreFacts.

Import PropertyStore.

Lemma list_remove_head `{EqDecision A} (x : A) (l : list A) :
  list_remove x (x :: l) = Some l.
Proof. simpl. by rewrite decide_True. Qed.

Lemma list_remove_elem `{EqDecision A} (x : A) (l : list A) :
  x ∈ l → is_Some (list_remove x l).
Proof.
  induction l as [|y l IH]; intros Hin.
  - by apply elem_of_nil in Hin.
  - simpl. destruct (decide (x = y)) as [->|Hne]; [by eexists|].
    apply elem_of_cons in Hin as [?|Hin]; [done|].
    destruct (IH Hin) as [l' ->]. by eexists.
Qed.

Lemma list_remove_app_fresh `{EqDecision A} (x : A) (l : list A) :
  x ∉ l → list_remove x (l ++ [x]) = Some l.
Proof.
  induction l as [|y l IH]; intros Hnin; simpl.
  - by rewrite decide_True.
  - apply not_elem_of_cons in Hnin as [Hne Hnin].
    rewrite decide_False by done. by rewrite IH.
Qed.

Lemma list_remove_length `{EqDecision A} (x : A) (l l' : list A) :
  list_remove x l = Some l' → length l = S (length l').
Proof.
  revert l'. induction l as [|y l IH]; intros l'; simpl; [done|].
  destruct (decide (x = y)); [by intros [= ->]|].
  destruct (list_remove x l) as [l0|] eqn:E; simpl; [|done].
  intros [= <-]. simpl. by rewrite (IH l0).
Qed.

(** The loop of [clear] ends because the list is exhausted, never because
    the fuel is. *)
Lemma clear_loop_not_stuck fuel i st :
  length (_v (prop st)) - i < fuel → (clear_loop fuel i st).1 ≠ Stuck.
Proof.
  revert i st. induction fuel as [|fuel IH]; intros i st Hlen; simpl.
  - lia.
  - destruct (_v (prop st) !! i) as [x|] eqn:E; [|done].
    unfold bind, assert_. case_bool_decide; [|done].
    unfold ret, owner_properties_remove.
    destruct (list_remove _ (owner_properties_of _ _)); [|done].
    unfold _v_remove. simpl.
    destruct (list_remove x (_v (prop st))) as [lv|] eqn:El; [|done].
    apply IH. simpl. apply list_remove_length in El.
    apply lookup_lt_Some in E. lia.
Qed.

Lemma clear_not_stuck st : (clear st).1 ≠ Stuck.
Proof.
  unfold clear, bind, modify, gets.
  apply clear_loop_not_stuck. simpl. lia.
Qed.

Lemma list_remove_subseteq `{EqDecision A} (x : A) (l l' : list A) :
  list_remove x l = Some l' → l' ⊆ l.
Proof.
  revert l'. induction l as [|y l IH]; intros l'; simpl; [done|].
  destruct (decide (x = y)).
  - intros [= ->] z Hz. by right.
  - destruct (list_remove x l) as [l0|]; simpl; [|done].
    intros [= <-] z Hz. apply elem_of_cons in Hz as [->|Hz]; [by left|].
    right. by apply (IH l0).
Qed.

(** Whatever its outcome, the loop of [clear] only drops Statements: it
    allocates nothing and leaves the Statement sets of the contexts. *)
Lemma clear_loop_frame fuel i st :
  next_id (clear_loop fuel i st).2 = next_id st ∧
  _v (prop (clear_loop fuel i st).2) ⊆ _v (prop st) ∧
  statements (clear_loop fuel i st).2 = statements st.
Proof.
  revert i st. induction fuel as [|fuel IH]; intros i st; simpl; [done|].
  destruct (_v (prop st) !! i) as [x|]; [|done].
  unfold bind, assert_. case_bool_decide; [|done].
  unfold ret, owner_properties_remove.
  destruct (list_remove _ (owner_properties_of _ _)); [|done].
  unfold _v_remove. simpl.
  destruct (list_remove x (_v (prop st))) as [lv|] eqn:El; [|done].
  match goal with
  | |- context [clear_loop fuel (S i) ?s] =>
      destruct (IH (S i) s) as (Hn & Hv & Hs)
  end.
  rewrite Hn, Hs. simpl. split; [done|]. split; [|done].
  intros z Hz. apply Hv in Hz. simpl in Hz.
  by apply (list_remove_subseteq x _ lv).
Qed.

Lemma owner_properties_of_set o l h :
  owner_properties_of (set_owner_properties o l h) o = l.
Proof. unfold owner_properties_of, set_owner_properties. by rewrite lookup_insert_eq. Qed.

Lemma lookup_set_owner_properties_ne o o' l (h : gmap nat GraphObject) :
  o ≠ o' → set_owner_properties o l h !! o' = h !! o'.
Proof. intros. unfold set_owner_properties. by rewrite lookup_insert_ne. Qed.

(** On a Property that holds at most one Statement, [clear] does what its
    docstring says: nothing is left, whatever the context of the Statement
    was, and only the object of that Statement is touched. *)
Lemma clear_at_most_one st :
  length (_v (prop st)) ≤ 1 →
  (∀ x, x ∈ _v (prop st) →
        self (prop st) ∈ owner_properties_of (heap st) (object x)) →
  ∃ h', clear st =
          (Ok tt, mkStore (mkProperty (self (prop st)) (owner (prop st))
                                      (multiple (prop st)) [] ∅)
                          h' (next_id st) (statements st)) ∧
        ∀ o, (∀ x, x ∈ _v (prop st) → object x ≠ o) → h' !! o = heap st !! o.
Proof.
  destruct st as [[sf ow mu l hdf] hp nx sts]; simpl.
  destruct l as [|x [|y l]]; simpl; intros Hlen Hback; [| |lia].
  - exists hp. split; [reflexivity|done].
  - assert (Hin : sf ∈ owner_properties_of hp (object x))
      by (apply Hback; left).
    destruct (list_remove_elem _ _ Hin) as [ops Hops].
    exists (set_owner_properties (object x) ops hp). split.
    + unfold clear, bind, modify, gets; simpl.
      unfold bind, assert_; simpl.
      rewrite bool_decide_eq_true_2 by done.
      unfold ret, owner_properties_remove; simpl. rewrite Hops.
      unfold _v_remove; simpl. rewrite decide_True by done. reflexivity.
    + intros o Ho. apply lookup_set_owner_properties_ne.
      apply Ho. left.
Qed.

(** C2, as amended: on a Property with [multiple] false that holds at most
    one Statement, on an existing object, [set(v)] with [v] not [None]
    does one of two things. If the object of that Statement lists the
    Property among its [owner_properties], as every object does that
    [set] itself has stored, the Statement is removed whatever context it
    is bound to, and the Statement (owner, p, v, c) is inserted, returned,
    and then the only one held. If the object does not list the Property,
    as after a failed [unset], [set] raises the [AssertionError] of
    [clear] and neither removes nor inserts a Statement. With [multiple]
    true the Statements held before stay, followed by the new one. Where
    [set] returns, the Statement joins the Statement set of the bound
    context and [p] is among the [owner_properties] of the value. *)
Theorem set_replaces_or_accumulates ctx v st :
  v ≠ PyNone →
  (multiple (prop st) = false →
   length (_v (prop st)) ≤ 1 ∧
   ∀ x, x ∈ _v (prop st) → object x < next_id st) →
  let stmt := mkStatement (owner (prop st)) (self (prop st))
                          (stored_object st v) ctx in
  ((multiple (prop st) = false →
    ∀ x, x ∈ _v (prop st) →
         self (prop st) ∈ owner_properties_of (heap st) (object x)) →
   ∃ st', set ctx v st = (Ok stmt, st') ∧
          _v (prop st') =
            (if multiple (prop st) then _v (prop st) else []) ++ [stmt] ∧
          statements st' = statements_with ctx stmt (statements st) ∧
          self (prop st) ∈ owner_properties_of (heap st') (stored_object st v)) ∧
  (multiple (prop st) = false →
   (∃ x, x ∈ _v (prop st) ∧
         self (prop st) ∉ owner_properties_of (heap st) (object x)) →
   ∃ st', set ctx v st = (Raise AssertionError, st') ∧
          _v (prop st') = _v (prop st) ∧
          statements st' = statements st ∧
          ∀ o, o < next_id st → heap st' !! o = heap st !! o).
Proof.
  intros Hv Hsingle stmt.
  (* the store after the value was wrapped, if it had to be *)
  set (st1 := match v with
              | PyScalar z => (alloc (new_PropertyValue z) st).2
              | _ => st
              end).
  assert (Hst1 : prop st1 = prop st ∧ statements st1 = statements st ∧
                 next_id st ≤ next_id st1 ∧
                 ∀ o, o < next_id st → heap st1 !! o = heap st !! o).
  { subst st1. destruct v; simpl; repeat split; auto with lia.
    intros o Ho. rewrite lookup_insert_ne; [done|lia]. }
  destruct Hst1 as (Hprop & Hsts & Hnext & Hheap).
  assert (Hset : set ctx v st =
            ((if negb (multiple (prop st)) then clear else ret tt) ;;>
             s <~ _insert_value ctx (stored_object st v) ;;
             match ctx with
             | Some c => add_statement c s
             | None => ret tt
             end ;;> ret s) st1).
  { subst st1. destruct v; [done| |]; unfold set, bind, alloc, gets, ret; simpl;
      reflexivity. }
  rewrite Hset. clear Hset. split.
  - intros Hback.
    destruct (multiple (prop st)) eqn:Hmul; simpl.
    + (* multiple: nothing is cleared *)
      unfold bind at 1. unfold ret at 1.
      destruct st1 as [[sf ow mu l hdf] hp nx sts]; simpl in *.
      subst stmt. rewrite <- Hprop, <- Hsts. simpl.
      destruct ctx; eexists; (split; [reflexivity|]); simpl;
        (split; [done|]); (split; [done|]);
        rewrite owner_properties_of_set; apply elem_of_app; right; constructor.
    + (* single: the Statement held, if any, goes *)
      destruct (Hsingle eq_refl) as [Hlen Hex].
      destruct (clear_at_most_one st1) as (h' & Hclear & _).
      { by rewrite Hprop. }
      { rewrite Hprop. intros x Hx.
        unfold owner_properties_of in *. rewrite Hheap by (by apply Hex).
        by apply Hback. }
      unfold bind at 1. rewrite Hclear.
      rewrite Hprop, Hsts. subst stmt.
      destruct (prop st) as [sf ow mu l hdf]; simpl in *.
      destruct ctx; eexists; (split; [reflexivity|]); simpl;
        (split; [done|]); (split; [done|]);
        rewrite owner_properties_of_set; apply elem_of_app; right; constructor.
  - (* single, and the object held does not list the Property *)
    intros Hmul (x & Hx & Hmissing).
    destruct (Hsingle Hmul) as [Hlen Hex].
    rewrite Hmul. simpl.
    assert (Hl : _v (prop st1) = [x]).
    { rewrite Hprop. destruct (_v (prop st)) as [|y [|z l]]; simpl in Hlen;
        [by apply elem_of_nil in Hx| |lia].
      by apply list_elem_of_singleton in Hx as ->. }
    assert (Hmissing1 : self (prop st1) ∉ owner_properties_of (heap st1) (object x)).
    { rewrite Hprop. unfold owner_properties_of in *.
      by rewrite Hheap by (by apply Hex). }
    exists (with_hdf (λ _, ∅) st1). split; [|split; [|split]].
    + unfold bind at 1. unfold clear, bind, modify, gets. simpl.
      rewrite Hl. simpl. unfold bind, assert_. simpl.
      by rewrite bool_decide_eq_false_2.
    + simpl. by rewrite Hprop.
    + done.
    + done.
Qed.

Lemma set_replaces_or_accumulates_witness :
  ∃ st', set (Some 1) (PyObject 2) held_elsewhere
           = (Ok (mkStatement 0 7 2 (Some 1)), st') ∧
         _v (prop st') = [mkStatement 0 7 2 (Some 1)] ∧
         statements st' =
           statements_with (Some 1) (mkStatement 0 7 2 (Some 1))
                           (statements held_elsewhere) ∧
         7 ∈ owner_properties_of (heap st') 2.
Proof.
  assert (Hv : _v (prop held_elsewhere) = [mkStatement 0 7 1 (Some 2)])
    by (vm_compute; reflexivity).
  destruct (set_replaces_or_accumulates (Some 1) (PyObject 2) held_elsewhere)
    as [Hreturns _].
  - discriminate.
  - intros _. split.
    + vm_compute. lia.
    + intros x Hx. rewrite Hv in Hx. apply list_elem_of_singleton in Hx as ->.
      vm_compute. lia.
  - apply Hreturns. intros _ x Hx.
    rewrite Hv in Hx. apply list_elem_of_singleton in Hx as ->.
    vm_compute. constructor.
Defined.

(** After [unset] has failed on [held_elsewhere] through the view of
    context 1, the object held no longer lists the Property, and [set]
    raises the [AssertionError] of [clear]; the Statement held stays. *)
Example set_after_failed_unset :
  let st := exec (_remove_value (Some 1) 1) held_elsewhere in
  (set (Some 1) (PyObject 2) st).1 = Raise AssertionError ∧
  _v (prop (exec (set (Some 1) (PyObject 2)) st)) = _v (prop held_elsewhere) ∧
  _v (prop held_elsewhere) = [mkStatement 0 7 1 (Some 2)].
Proof. vm_compute. done. Qed.

(** What [_insert_value] and [_remove_value] do to the store. *)
Lemma _insert_value_eq ctx v st :
  _insert_value ctx v st =
    (Ok (mkStatement (owner (prop st)) (self (prop st)) v ctx),
     mkStore (mkProperty (self (prop st)) (owner (prop st)) (multiple (prop st))
                (_v (prop st) ++ [mkStatement (owner (prop st)) (self (prop st)) v ctx])
                (<[ctx := None]> (_hdf (prop st))))
             (set_owner_properties v
                (owner_properties_of (heap st) v ++ [self (prop st)]) (heap st))
             (next_id st) (statements st)).
Proof. by destruct st as [[] ? ? ?]. Qed.

Lemma _remove_value_eq ctx v st ops l :
  list_remove (self (prop st)) (owner_properties_of (heap st) v) = Some ops →
  list_remove (mkStatement (owner (prop st)) (self (prop st)) v ctx)
              (_v (prop st)) = Some l →
  _remove_value ctx v st =
    (Ok tt,
     mkStore (mkProperty (self (prop st)) (owner (prop st)) (multiple (prop st))
                l (<[ctx := None]> (_hdf (prop st))))
             (set_owner_properties v ops (heap st))
             (next_id st) (statements st)).
Proof.
  destruct st as [[sf ow mu l0 hdf] hp nx sts]; simpl. intros Hops Hl.
  assert (Hin : sf ∈ owner_properties_of hp v).
  { destruct (owner_properties_of hp v) as [|a ops0]; [done|].
    simpl in Hops. destruct (decide (sf = a)) as [->|]; [constructor|].
    destruct (list_remove sf ops0) eqn:E; [|done].
    clear -E. right. revert l1 E.
    induction ops0 as [|b ops0 IH]; intros l1; simpl; [done|].
    destruct (decide (sf = b)) as [->|]; [constructor|].
    destruct (list_remove sf ops0); [|done]. right. by eapply IH. }
  unfold _remove_value, bind, gets, assert_; simpl.
  rewrite bool_decide_eq_true_2 by done.
  unfold ret, modify, owner_properties_remove; simpl. rewrite Hops.
  unfold _v_remove; simpl. by rewrite Hl.
Qed.

Lemma bind_preserves {A B} (I : Store → Prop) (m : M Store A) (k : A → M Store B) :
  preserves I m → (∀ a, preserves I (k a)) → preserves I (bind m k).
Proof.
  intros Hm Hk st HI. unfold bind. specialize (Hm st HI).
  destruct (m st) as [[a|ex|] st']; simpl in *; [by apply Hk|done|done].
Qed.

Lemma ret_preserves {A} (I : Store → Prop) (a : A) : preserves I (ret a).
Proof. by intros st. Qed.

Lemma gets_preserves {A} (I : Store → Prop) (f : Store → A) : preserves I (gets f).
Proof. by intros st. Qed.

Lemma clear_preserves o : preserves (objects_exist o) clear.
Proof.
  intros st [Ho Hobj].
  assert (Hclear : clear st = clear_loop (S (length (_v (prop st)))) 0
                                (with_hdf (λ _, ∅) st)) by reflexivity.
  rewrite Hclear.
  destruct (clear_loop_frame (S (length (_v (prop st)))) 0
              (with_hdf (λ _, ∅) st)) as (Hn & Hsub & _).
  split; rewrite Hn; simpl; [done|].
  intros x Hx. apply Hsub in Hx. by apply Hobj.
Qed.

Lemma _insert_value_preserves ctx o : preserves (objects_exist o) (_insert_value ctx o).
Proof.
  intros st [Ho Hobj]. rewrite _insert_value_eq. simpl.
  split; simpl; [done|].
  intros x Hx. apply elem_of_app in Hx as [Hx|Hx]; [by apply Hobj|].
  by apply list_elem_of_singleton in Hx as ->.
Qed.

Lemma add_statement_preserves o c stmt : preserves (objects_exist o) (add_statement c stmt).
Proof. by intros st. Qed.

(** An invariant of [set]: the Statements held point to existing
    objects. *)
Lemma set_keeps_objects_exist ctx v st :
  (∀ x, x ∈ _v (prop st) → object x < next_id st) →
  (∀ o, v = PyObject o → o < next_id st) →
  let st' := exec (set ctx v) st in
  ∀ x, x ∈ _v (prop st') → object x < next_id st'.
Proof.
  intros Hobj Hv.
  assert (Hrest : ∀ o, preserves (objects_exist o)
            (m <~ gets (λ st, multiple (prop st)) ;;
             (if negb m then clear else ret tt) ;;>
             stmt <~ _insert_value ctx o ;;
             match ctx with
             | Some c => add_statement c stmt
             | None => ret tt
             end ;;> ret stmt)).
  { intros o. apply bind_preserves; [apply gets_preserves|]. intros m.
    apply bind_preserves.
    { destruct m; simpl; [apply ret_preserves|apply clear_preserves]. }
    intros _. apply bind_preserves; [apply _insert_value_preserves|].
    intros stmt. apply bind_preserves; [|intros; apply ret_preserves].
    destruct ctx; [apply add_statement_preserves|apply ret_preserves]. }
  unfold exec. destruct v as [|z|o]; [done| |].
  - apply (Hrest (next_id st)
             (mkStore (prop st) (<[next_id st := new_PropertyValue z]> (heap st))
                      (S (next_id st)) (statements st))).
    split; simpl; [lia|]. intros x Hx. apply Hobj in Hx. lia.
  - apply (Hrest o st). split; [by apply Hv|done].
Qed.

Section GetFacts.

Context {Graph Term : Type} `{EqDecision Term}.
Variable triples : Graph → nat → nat → list Term.
Variable GraphObjectQuerier : Graph → Store → nat → list Term.

(** The run of [get()] for an owner that is not defined, step by
    step. *)
Lemma get_undefined_run ctx g st :
  from_option defined false (heap st !! owner (prop st)) = false →
  (∀ x, x ∈ _v (prop st) → object x < next_id st) →
  let v := next_id st in
  let placeholder := mkStatement (owner (prop st)) (self (prop st)) v ctx in
  ∃ st_q st',
    get triples GraphObjectQuerier ctx (Some g) st
      = (Ok (GraphObjectQuerier g st_q v), st') ∧
    _v (prop st_q) = _v (prop st) ++ [placeholder] ∧
    owner_properties_of (heap st_q) v = [self (prop st)] ∧
    prop st' = mkProperty (self (prop st)) (owner (prop st))
                 (multiple (prop st)) (_v (prop st))
                 (<[ctx := None]> (_hdf (prop st))) ∧
    owner_properties_of (heap st') v = [] ∧
    (∀ o, o ≠ v → heap st' !! o = heap st !! o) ∧
    next_id st' = S v ∧
    statements st' = statements st.
Proof.
  destruct st as [[sf ow mu l hdf] hp nx sts]; simpl.
  intros Hundef Hfresh.
  assert (Hnin : mkStatement ow sf nx ctx ∉ l).
  { intros Hin. apply Hfresh in Hin. simpl in Hin. lia. }
  unfold get. simpl.
  unfold bind at 1. unfold gets at 1. unfold bind at 1. unfold gets at 1.
  simpl. rewrite Hundef.
  unfold bind at 1. unfold alloc at 1. simpl.
  unfold bind at 1. rewrite _insert_value_eq. simpl.
  unfold bind at 1. unfold gets at 1.
  unfold bind at 1.
  erewrite _remove_value_eq; simpl.
  2:{ rewrite owner_properties_of_set. unfold owner_properties_of.
      rewrite lookup_insert_eq. simpl. by rewrite decide_True. }
  2:{ by apply list_remove_app_fresh. }
  unfold ret.
  eexists. eexists. split; [reflexivity|]. simpl.
  split; [done|]. split.
  { rewrite owner_properties_of_set. unfold owner_properties_of.
    by rewrite lookup_insert_eq. }
  split; [by rewrite insert_insert_eq|].
  split; [by rewrite owner_properties_of_set|].
  split; [|done].
  intros o Ho.
  rewrite !lookup_set_owner_properties_ne by done.
  by rewrite lookup_insert_ne.
Qed.

(** C3: when the owner is not defined, [get()] allocates a placeholder
    Variable, inserts its Statement, asks the querier on the store that
    holds this Statement, and removes it again: after the call the
    Statements of [p] are those before the call, the placeholder has no
    back-reference, as when it was made, every other object is as it
    was, and so are the Statement sets of the contexts. *)
Theorem get_removes_its_placeholder ctx g st :
  from_option defined false (heap st !! owner (prop st)) = false →
  (∀ x, x ∈ _v (prop st) → object x < next_id st) →
  let v := next_id st in
  let placeholder := mkStatement (owner (prop st)) (self (prop st)) v ctx in
  ∃ st_q st',
    get triples GraphObjectQuerier ctx (Some g) st
      = (Ok (GraphObjectQuerier g st_q v), st') ∧
    _v (prop st_q) = _v (prop st) ++ [placeholder] ∧
    owner_properties_of (heap st_q) v = [self (prop st)] ∧
    _v (prop st') = _v (prop st) ∧
    owner_properties_of (heap st') v = [] ∧
    (∀ o, o ≠ v → heap st' !! o = heap st !! o) ∧
    statements st' = statements st.
Proof.
  intros Hundef Hfresh v placeholder.
  destruct (get_undefined_run ctx g st Hundef Hfresh)
    as (st_q & st' & Hrun & Hq & Hback & Hprop & Hv & Hheap & _ & Hsts).
  exists st_q, st'. rewrite Hprop. simpl. done.
Qed.

(** What [get()] does leave behind on [p]: the cache of
    [has_defined_value] is reset for the bound context. The Statements
    held keep pointing to existing objects. *)
Lemma get_resets_hdf ctx g st :
  from_option defined false (heap st !! owner (prop st)) = false →
  (∀ x, x ∈ _v (prop st) → object x < next_id st) →
  let st' := exec (get triples GraphObjectQuerier ctx (Some g)) st in
  _hdf (prop st') = <[ctx := None]> (_hdf (prop st)) ∧
  (∀ x, x ∈ _v (prop st') → object x < next_id st').
Proof.
  intros Hundef Hfresh.
  destruct (get_undefined_run ctx g st Hundef Hfresh)
    as (st_q & st' & Hrun & _ & _ & Hprop & _ & _ & Hnext & _).
  unfold exec. rewrite Hrun. simpl. rewrite Hprop, Hnext. simpl.
  split; [done|]. intros x Hx. apply Hfresh in Hx. lia.
Qed.

(** Without a graph, or with a defined owner, [get()] touches
    nothing. *)
Lemma get_without_graph ctx st :
  get triples GraphObjectQuerier ctx None st = (Ok [], st).
Proof. reflexivity. Qed.

Lemma get_defined_owner ctx g st :
  from_option defined false (heap st !! owner (prop st)) = true →
  (get triples GraphObjectQuerier ctx (Some g) st).2 = st.
Proof.
  intros Hdef. unfold get, bind, gets. simpl. by rewrite Hdef.
Qed.

End GetFacts.

Lemma get_removes_its_placeholder_witness :
  ∃ st_q st',
    get (λ _ _ _, []) (λ (_ : unit) st (v : nat), object <$> _v (prop st))
        (Some 1) (Some tt) held_elsewhere
      = (Ok (object <$> _v (prop st_q)), st') ∧
    _v (prop st_q) = _v (prop held_elsewhere) ++ [mkStatement 0 7 3 (Some 1)] ∧
    owner_properties_of (heap st_q) 3 = [7] ∧
    _v (prop st') = _v (prop held_elsewhere) ∧
    owner_properties_of (heap st') 3 = [] ∧
    (∀ o, o ≠ 3 → heap st' !! o = heap held_elsewhere !! o) ∧
    statements st' = statements held_elsewhere.
Proof.
  apply (get_removes_its_placeholder
           (λ _ _ _, []) (λ (_ : unit) st (v : nat), object <$> _v (prop st))
           (Some 1) tt held_elsewhere).
  - vm_compute. reflexivity.
  - intros x Hx.
    assert (Hv : _v (prop held_elsewhere) = [mkStatement 0 7 1 (Some 2)])
      by (vm_compute; reflexivity).
    rewrite Hv in Hx. apply list_elem_of_singleton in Hx as ->.
    vm_compute. lia.
Defined.

Lemma list_remove_middle `{EqDecision A} (x : A) (pre rest : list A) :
  x ∉ pre → list_remove x (pre ++ x :: rest) = Some (pre ++ rest).
Proof.
  induction pre as [|y pre IH]; intros Hnin; simpl.
  - by rewrite decide_True.
  - apply not_elem_of_cons in Hnin as [Hne Hnin].
    rewrite decide_False by done. by rewrite IH.
Qed.

(** What the loop of [clear] really does when the Statements held are
    pairwise distinct and point to distinct objects that list the
    Property: from position [length pre] on, it drops one Statement and
    steps over the next. *)
Lemma clear_loop_every_second fuel :
  ∀ pre rest st,
    _v (prop st) = pre ++ rest →
    NoDup (pre ++ rest) →
    NoDup (object <$> rest) →
    (∀ x, x ∈ rest → self (prop st) ∈ owner_properties_of (heap st) (object x)) →
    length rest < fuel →
    ∃ st', clear_loop fuel (length pre) st = (Ok tt, st') ∧
           _v (prop st') = pre ++ every_second rest.
Proof.
  induction fuel as [|fuel IH]; intros pre rest st Hv Hnd Hobj Hback Hfuel;
    [lia|].
  simpl. rewrite Hv.
  destruct rest as [|x rest].
  - rewrite lookup_ge_None_2 by (rewrite app_nil_r; lia).
    exists st. by rewrite Hv.
  - rewrite lookup_app_r by lia. rewrite Nat.sub_diag. simpl.
    assert (Hin : self (prop st) ∈ owner_properties_of (heap st) (object x))
      by (apply Hback; left).
    destruct (list_remove_elem _ _ Hin) as [ops Hops].
    assert (Hx : x ∉ pre).
    { apply NoDup_app in Hnd as (_ & Hdisj & _). intros Hp.
      apply (Hdisj x Hp). left. }
    unfold bind at 1, assert_. rewrite bool_decide_eq_true_2 by done.
    unfold ret at 1. unfold bind at 1, owner_properties_remove at 1.
    rewrite Hops. unfold bind at 1, _v_remove at 1. simpl.
    rewrite Hv, list_remove_middle by done.
    set (st1 := with_v _ _).
    assert (Hself : self (prop st1) = self (prop st)) by done.
    assert (Hv1 : _v (prop st1) = pre ++ rest) by done.
    assert (Hheap1 : ∀ o, o ≠ object x →
              owner_properties_of (heap st1) o = owner_properties_of (heap st) o).
    { intros o Ho. unfold owner_properties_of, st1. simpl.
      by rewrite lookup_set_owner_properties_ne. }
    clearbody st1.
    rewrite fmap_cons in Hobj. apply NoDup_cons in Hobj as [Hox Hobj].
    destruct rest as [|y rest].
    + destruct fuel as [|fuel]; [simpl in Hfuel; lia|]. simpl.
      rewrite Hv1, lookup_ge_None_2 by (rewrite app_nil_r; lia).
      exists st1. by rewrite Hv1.
    + destruct (IH (pre ++ [y]) rest st1) as (st' & Hrun & Hv').
      * by rewrite Hv1, <- app_assoc.
      * rewrite <- app_assoc. simpl.
        apply NoDup_app in Hnd as (Hpre & Hdisj & Hrest).
        apply NoDup_cons in Hrest as [_ Hrest].
        apply NoDup_app. split; [done|]. split; [|done].
        intros z Hz Hz'. apply (Hdisj z Hz). by right.
      * rewrite fmap_cons in Hobj. by apply NoDup_cons in Hobj as [_ Hobj].
      * intros z Hz. rewrite Hself, Hheap1.
        -- apply Hback. right. by right.
        -- intros Heq. apply Hox. rewrite <- Heq.
           apply list_elem_of_fmap_2. by right.
      * simpl in Hfuel. lia.
      * exists st'. rewrite length_app in Hrun. simpl in Hrun.
        rewrite Nat.add_1_r in Hrun. split; [done|].
        rewrite Hv', <- app_assoc. done.
Qed.

(** Hence [clear] returns with every second Statement still held. *)
Lemma clear_leaves_every_second st :
  NoDup (_v (prop st)) →
  NoDup (object <$> _v (prop st)) →
  (∀ x, x ∈ _v (prop st) →
        self (prop st) ∈ owner_properties_of (heap st) (object x)) →
  (clear st).1 = Ok tt ∧
  _v (prop (exec clear st)) = every_second (_v (prop st)).
Proof.
  intros Hnd Hobj Hback.
  assert (Hclear : clear st = clear_loop (S (length (_v (prop st)))) 0
                                (with_hdf (λ _, ∅) st)) by reflexivity.
  destruct (clear_loop_every_second (S (length (_v (prop st)))) []
              (_v (prop st)) (with_hdf (λ _, ∅) st))
    as (st' & Hrun & Hv'); try done; [simpl; lia|].
  simpl in Hrun. unfold exec. rewrite Hclear. simpl. rewrite Hrun. done.
Qed.

(** C8, as amended: [p.set(None)] fails before anything is changed. The
    error is the invalid-value [ValueError] of [Property.set]; an
    [ObjectProperty] rejects [None] in its own guard, with its type
    error. The store, hence the Statements of [p], the back-references and
    the Statement sets of the contexts, is the one before the call. *)
Theorem set_None_fails_without_change k ctx st :
  set_method k ctx PyNone st =
    (Raise match k with
           | Property_class => ValueError invalid_msg
           | ObjectProperty_class => Exception_ type_msg
           end, st).
Proof. by destruct k. Qed.

(** C8, as stated, fails: on an [ObjectProperty] the error of
    [set(None)] is not the invalid-value error. *)
Lemma set_None_not_always_invalid_value :
  ¬ (∀ k ctx st, (set_method k ctx PyNone st).1 = Raise (ValueError invalid_msg)).
Proof.
  intros Hall.
  specialize (Hall ObjectProperty_class None (example_store false)).
  discriminate Hall.
Qed.

(** C1, at the failing input: after [p.set(a); p.set(b)] on a Property
    with [multiple = True], [p.clear()] returns and [p] still holds the
    Statement of [b], [has_value()] is true and [p] is still among the
    [owner_properties] of [b]. *)
Theorem clear_skips_every_other_statement :
  _v (prop two_values) = [mkStatement 0 7 1 None; mkStatement 0 7 2 None] ∧
  (clear two_values).1 = Ok tt ∧
  _v (prop (exec clear two_values)) = [mkStatement 0 7 2 None] ∧
  has_value None (exec clear two_values) = true ∧
  values None (exec clear two_values) = [2] ∧
  owner_properties_of (heap (exec clear two_values)) 2 = [7].
Proof. vm_compute. done. Qed.

(** C2, as stated, fails: a Statement bound to another context does not
    survive [set] on a Property with [multiple = False]. *)
Lemma set_clears_other_contexts :
  multiple (prop held_elsewhere) = false ∧
  filter (λ x, context x ≠ Some 1) (_v (prop held_elsewhere))
    = [mkStatement 0 7 1 (Some 2)] ∧
  filter (λ x, context x ≠ Some 1)
         (_v (prop (exec (set (Some 1) (PyObject 2)) held_elsewhere))) = [].
Proof. vm_compute. done. Qed.

End PropertyStoreFacts.

(** * Properties of the class ordering *)

Section ClassOrderFacts.

Import ClassOrder.

Lemma ascii_compare_refl c : Ascii.compare c c = Eq.
Proof. unfold Ascii.compare. apply N.compare_refl. Qed.

(** [<] on names is lexicographic precedence. *)
Lemma ltb_lex_lt s t : String.ltb s t = true ↔ lex_lt s t.
Proof.
  unfold String.ltb. revert t.
  induction s as [|c s IH]; intros [|d t]; simpl.
  - split; [done|]. inversion 1.
  - split; [constructor|done].
  - split; [done|]. inversion 1.
  - destruct (Ascii.compare c d) eqn:E.
    + apply Ascii.compare_eq_iff in E as ->. rewrite IH. split.
      * by constructor.
      * inversion 1 as [|? ? ? ? Hlt|]; subst; [|done].
        apply N.lt_irrefl in Hlt. done.
    + split; [|done]. intros _. apply lex_lt_head.
      unfold Ascii.compare in E. by apply N.compare_lt_iff.
    + split; [done|]. unfold Ascii.compare in E.
      apply N.compare_gt_iff in E.
      inversion 1 as [|? ? ? ? Hlt|]; subst.
      * destruct (N.lt_asymm _ _ E Hlt).
      * by apply N.lt_irrefl in E.
Qed.

(** C4, as amended: [B < A] holds iff [B] is an ancestor of [A] and not
    vice versa (the ancestor is the smaller one), or neither is an
    ancestor of the other more than the other is of it and the name of [B]
    lexicographically precedes the name of [A]. *)
Theorem lt_ancestor_first_then_name (A B : pyclass) :
  __lt__ B A = true ↔
    strict_ancestor B A ∨
    (issubclass B A = issubclass A B ∧ lex_lt (__name__ B) (__name__ A)).
Proof.
  unfold __lt__, strict_ancestor. rewrite <- ltb_lex_lt.
  destruct (issubclass A B), (issubclass B A); simpl; intuition congruence.
Qed.

(** Read on the three cases of the claim. *)
Corollary lt_cases (A B : pyclass) :
  (strict_ancestor B A → __lt__ B A = true) ∧
  (strict_ancestor A B → __lt__ B A = false) ∧
  (issubclass A B = false → issubclass B A = false →
   (__lt__ B A = true ↔ lex_lt (__name__ B) (__name__ A))).
Proof.
  unfold __lt__, strict_ancestor. rewrite <- ltb_lex_lt.
  destruct (issubclass A B), (issubclass B A); simpl; intuition congruence.
Qed.

(** C4, as stated, fails: [Property] is an ancestor of [ObjectProperty]
    and not vice versa, but [ObjectProperty < Property] is false; it is
    [Property < ObjectProperty] that holds. *)
Lemma subclass_not_lt_ancestor :
  strict_ancestor Property ObjectProperty ∧
  __lt__ ObjectProperty Property = false ∧
  __lt__ Property ObjectProperty = true.
Proof. vm_compute. done. Qed.

(** Neither of [ObjectProperty] and [DatatypeProperty] is an ancestor of the
    other: the names decide. *)
Example lt_by_name :
  __lt__ DatatypeProperty ObjectProperty = true ∧
  __lt__ ObjectProperty DatatypeProperty = false.
Proof. vm_compute. done. Qed.

End ClassOrderFacts.

(** * Properties of property expressions *)

Section PropertyExprFacts.

Import PropertyExpr.

Context {Term : Type} `{Countable Term}.

Implicit Types (w : World (Term := Term)) (e : PropertyExpr (Term := Term)).

(** The invariant of the [multiple=False] loop, started from any [res]. *)
Lemma to_dict_single_spec (triples : list (Triple (Term := Term))) :
  ∀ res : gmap Term Term,
    let clash := (∃ s p o o', res !! s = Some o' ∧ (s, p, o) ∈ triples ∧ o' ≠ o)
                 ∨ two_objects triples in
    match to_dict_single triples res with
    | Ok res' =>
        ¬ clash ∧
        ∀ s o, res' !! s = Some o ↔ (∃ p, (s, p, o) ∈ triples) ∨ res !! s = Some o
    | Raise ex => ex = PropertyExprError ∧ clash
    | Stuck => False
    end.
Proof.
  induction triples as [|[[s p] o] ts IH]; intros res; simpl.
  - split.
    + intros [(? & ? & ? & ? & _ & Hin & _)|(? & ? & ? & ? & ? & Hin & _)];
        by apply elem_of_nil in Hin.
    + intros s o. split; [by right|].
      intros [[? Hin]|?]; [by apply elem_of_nil in Hin|done].
  - assert (Hstep :
      (∀ cv, res !! s = Some cv → cv = o) →
      match to_dict_single ts (<[s:=o]> res) with
      | Ok res' =>
          ¬ ((∃ s0 p0 o0 o', res !! s0 = Some o' ∧
                             (s0, p0, o0) ∈ (s, p, o) :: ts ∧ o' ≠ o0)
             ∨ two_objects ((s, p, o) :: ts)) ∧
          ∀ s0 o0, res' !! s0 = Some o0 ↔
                   (∃ p0, (s0, p0, o0) ∈ (s, p, o) :: ts) ∨ res !! s0 = Some o0
      | Raise ex =>
          ex = PropertyExprError ∧
          ((∃ s0 p0 o0 o', res !! s0 = Some o' ∧
                           (s0, p0, o0) ∈ (s, p, o) :: ts ∧ o' ≠ o0)
           ∨ two_objects ((s, p, o) :: ts))
      | Stuck => False
      end).
    { intros Hcur. specialize (IH (<[s:=o]> res)). simpl in IH.
      destruct (to_dict_single ts (<[s:=o]> res)) as [res'|ex|]; [| |done].
      - destruct IH as [Hno Hchar]. split.
        + intros [(s0 & p0 & o0 & o' & Hres & Hin & Hne)
                 |(s0 & p1 & o1 & p2 & o2 & Hin1 & Hin2 & Hne)].
          * apply elem_of_cons in Hin as [Heq|Hin].
            { simplify_eq. apply Hne. by apply Hcur. }
            apply Hno. left. exists s0, p0, o0.
            destruct (decide (s0 = s)) as [->|Hs].
            { exists o. rewrite lookup_insert_eq. split; [done|].
              split; [done|]. by rewrite <- (Hcur _ Hres). }
            exists o'. by rewrite lookup_insert_ne.
          * apply elem_of_cons in Hin1 as [Heq1|Hin1];
              apply elem_of_cons in Hin2 as [Heq2|Hin2]; simplify_eq.
            { apply Hno. left. exists s, p2, o2, o.
              by rewrite lookup_insert_eq. }
            { apply Hno. left. exists s, p1, o1, o.
              rewrite lookup_insert_eq. split; [done|]. split; [done|].
              by intros ->. }
            { apply Hno. right. by exists s0, p1, o1, p2, o2. }
        + intros s0 o0. rewrite Hchar. split.
          * intros [[p0 Hin]|Hres].
            { left. exists p0. by right. }
            destruct (decide (s0 = s)) as [->|Hs].
            { rewrite lookup_insert_eq in Hres. injection Hres as <-.
              left. exists p. by left. }
            rewrite lookup_insert_ne in Hres by done. by right.
          * intros [[p0 Hin]|Hres].
            { apply elem_of_cons in Hin as [Heq|Hin].
              - simplify_eq. right. by rewrite lookup_insert_eq.
              - left. by exists p0. }
            destruct (decide (s0 = s)) as [->|Hs].
            { right. rewrite lookup_insert_eq. by rewrite (Hcur _ Hres). }
            right. by rewrite lookup_insert_ne.
      - destruct IH as [-> Hclash]. split; [done|].
        destruct Hclash as [(s0 & p0 & o0 & o' & Hres & Hin & Hne)
                           |(s0 & p1 & o1 & p2 & o2 & Hin1 & Hin2 & Hne)].
        + destruct (decide (s0 = s)) as [->|Hs].
          * rewrite lookup_insert_eq in Hres. injection Hres as <-.
            right. exists s, p, o, p0, o0.
            split; [by left|]. split; [by right|done].
          * rewrite lookup_insert_ne in Hres by done.
            left. exists s0, p0, o0, o'. split; [done|]. split; [by right|done].
        + right. exists s0, p1, o1, p2, o2.
          split; [by right|]. split; [by right|done]. }
    destruct (res !! s) as [cv|] eqn:Hcv.
    + destruct (decide (cv ≠ o)) as [Hne|Heq].
      * split; [done|]. left. exists s, p, o, cv.
        split; [done|]. split; [by left|done].
      * apply Hstep. intros cv' [= <-]. by apply dec_stable.
    + apply Hstep. intros cv' [=].
Qed.

(** C5: on an expression whose [to_dict] was not called yet,
    [to_dict(multiple=False)] raises the multi-value error iff the triples
    of the expression hold two distinct objects for one subject;
    otherwise it returns, and caches, the dict that maps every subject of
    the triples to its one object. *)
Theorem to_dict_single_valued w e :
  dict e = None →
  let triples := triples_provider w (providers e) in
  ((to_dict w false e).1 = Raise PropertyExprError ↔ two_objects triples) ∧
  (¬ two_objects triples →
   ∃ res, to_dict w false e =
            (Ok (SingleDict res),
             mkExpr (props e) (providers e) (terms e) (Some (SingleDict res))
                    (combos e)) ∧
          ∀ s o, res !! s = Some o ↔ ∃ p, (s, p, o) ∈ triples).
Proof.
  intros Hfresh triples. unfold to_dict. rewrite Hfresh. simpl.
  fold triples.
  pose proof (to_dict_single_spec triples ∅) as Hloop. simpl in Hloop.
  assert (Hclash :
    (∃ s p o o', (∅ : gmap Term Term) !! s = Some o' ∧
                 (s, p, o) ∈ triples ∧ o' ≠ o) ∨ two_objects triples
    ↔ two_objects triples).
  { split; [|by right]. intros [(? & ? & ? & ? & Hemp & _)|?]; [|done].
    by rewrite lookup_empty in Hemp. }
  destruct (to_dict_single triples ∅) as [res|ex|]; simpl; [| |done].
  - destruct Hloop as [Hno Hchar]. rewrite Hclash in Hno. split.
    + split; [done|]. intros Htwo. by destruct Hno.
    + intros _. exists res. split; [done|].
      intros s o. rewrite Hchar, lookup_empty. split.
      * by intros [?|?].
      * by left.
  - destruct Hloop as [-> Htwo]. rewrite Hclash in Htwo. split.
    + done.
    + intros Hno. by destruct Hno.
Qed.

(** C7, as amended: the first [to_terms()] returns the sequence the terms
    provider yields, as it is, and stores it; any later call returns the
    stored sequence whatever the world has become, that is, without
    asking the provider again. *)
Theorem to_terms_memoizes w e :
  terms e = None →
  (to_terms w e).1 = terms_provider w (providers e) ∧
  terms (to_terms w e).2 = Some (to_terms w e).1 ∧
  ∀ w', to_terms w' (to_terms w e).2 = to_terms w e.
Proof.
  intros Hfresh. unfold to_terms. rewrite Hfresh. simpl. done.
Qed.

(** C10: once [to_dict] has returned a dict, every later call, whatever
    its [multiple] argument and whatever the triples have become, returns
    this very dict and leaves the expression as it is. *)
Theorem to_dict_cached w m e d e' :
  to_dict w m e = (Ok d, e') →
  dict e' = Some d ∧ ∀ w' m', to_dict w' m' e' = (Ok d, e').
Proof.
  unfold to_dict at 1. intros Hfirst.
  assert (Hd : dict e' = Some d).
  { destruct (dict e) as [d0|] eqn:Hdict.
    - injection Hfirst as <- <-. done.
    - destruct m.
      + injection Hfirst as <- <-. done.
      + destruct (to_dict_single _ _); [|done|done].
        injection Hfirst as <- <-. done. }
  split; [done|]. intros w' m'. unfold to_dict. by rewrite Hd.
Qed.

(** [to_dict(multiple=True)] always returns. *)
Lemma to_dict_multiple_returns w e :
  ∃ d e', to_dict w true e = (Ok d, e').
Proof. unfold to_dict. destruct (dict e); by eexists _, _. Qed.

Implicit Types (σ : ExprStore (Term := Term)).

(** [p.expr] returns a root expression over [p], creating it at the first
    access, and disturbs no other cached expression. *)
Lemma expr_spec p σ :
  wf_store σ →
  ∃ i e σ',
    expr p σ = (Ok i, σ') ∧ wf_store σ' ∧
    _expr σ' !! p = Some i ∧ exprs σ' !! i = Some e ∧
    providers e = root [p] ∧
    (∀ ts, terms e = Some ts → _expr σ !! p = Some i ∧ exprs σ !! i = Some e) ∧
    (∀ q j, _expr σ !! q = Some j →
            _expr σ' !! q = Some j ∧ exprs σ' !! j = exprs σ !! j).
Proof.
  intros [Hdom Hroot]. unfold expr, bind, gets.
  destruct (_expr σ !! p) as [i|] eqn:Hp.
  - destruct (Hroot p i Hp) as (e & He & Hpr).
    exists i, e, σ. unfold ret. repeat split; auto.
  - unfold new_expr, modify, ret; simpl.
    set (i := next_expr σ).
    assert (Hfresh : ∀ j, is_Some (exprs σ !! j) → j ≠ i).
    { intros j Hj. apply Hdom in Hj. unfold i. lia. }
    assert (Hold : ∀ q j, _expr σ !! q = Some j → j ≠ i).
    { intros q j Hq. destruct (Hroot q j Hq) as (e & He & _).
      apply Hfresh. by eexists. }
    eexists i, _, _. split; [reflexivity|]. simpl.
    split; [split; simpl|].
    + intros j Hj. destruct (decide (j = i)) as [->|Hne]; [lia|].
      rewrite lookup_insert_ne in Hj by done. apply Hdom in Hj. lia.
    + intros q j Hq. destruct (decide (q = p)) as [->|Hne].
      * rewrite lookup_insert_eq in Hq. injection Hq as <-.
        eexists. by rewrite lookup_insert_eq.
      * rewrite lookup_insert_ne in Hq by done.
        destruct (Hroot q j Hq) as (e & He & Hpr).
        exists e. split; [|done].
        rewrite lookup_insert_ne; [done|]. intros <-. by apply (Hold q i).
    + rewrite !lookup_insert_eq.
      split; [done|]. split; [done|]. split; [done|]. split; [done|].
      intros q j Hq. split.
      * rewrite lookup_insert_ne; [done|]. intros <-. congruence.
      * rewrite lookup_insert_ne; [done|]. intros <-. by apply (Hold q i).
Qed.

(** [a | b] on two distinct stored expressions is a new expression that
    chains their providers. *)
Lemma or_spec σ i1 i2 e1 e2 :
  i1 ≠ i2 → i1 < next_expr σ → i2 < next_expr σ →
  exprs σ !! i1 = Some e1 → exprs σ !! i2 = Some e2 →
  ∃ σ', __or__ i1 i2 σ = (Ok (next_expr σ), σ') ∧
        exprs σ' !! next_expr σ =
          Some (new_PropertyExpr (props e1 ++ props e2)
                                 (chain (providers e1) (providers e2))).
Proof.
  intros Hne Hlt1 Hlt2 H1 H2. unfold __or__. rewrite decide_False by done.
  unfold bind at 1. unfold read_expr at 1. rewrite H1.
  unfold bind at 1. unfold read_expr at 1. rewrite H2.
  unfold bind at 1. unfold new_expr at 1.
  unfold bind at 1. unfold combos_append at 1.
  unfold bind at 1. unfold read_expr at 1. simpl.
  rewrite lookup_insert_ne by lia. rewrite H1.
  unfold write_expr at 1. unfold modify at 1. simpl.
  unfold bind at 1. unfold combos_append at 1.
  unfold bind at 1. unfold read_expr at 1. simpl.
  rewrite lookup_insert_ne by done. rewrite lookup_insert_ne by lia. rewrite H2.
  unfold write_expr, modify, ret. simpl.
  eexists. split; [reflexivity|]. simpl.
  rewrite lookup_insert_ne by lia. rewrite lookup_insert_ne by lia.
  by rewrite lookup_insert_eq.
Qed.

Lemma to_terms_of_spec w σ i e :
  exprs σ !! i = Some e →
  ∃ σ', to_terms_of w i σ = (Ok (to_terms w e).1, σ').
Proof.
  intros He. unfold to_terms_of, bind, read_expr. rewrite He.
  unfold write_expr, modify, ret. by eexists.
Qed.

(** C6: the terms of [(p1.expr | p2.expr).to_terms()], as a set, are the
    terms of [p1.get_terms()] together with those of [p2.get_terms()].
    When [p1] and [p2] are the same Property the union is [p1.expr] itself,
    whose memoized terms, if any, have to be those of the present world. *)
Theorem union_law w σ p1 p2 :
  wf_store σ →
  (p1 = p2 → memo_current w σ p1) →
  ∃ ts σ',
    union_terms w p1 p2 σ = (Ok ts, σ') ∧
    list_to_set ts =@{gset Term}
      list_to_set (get_terms w p1) ∪ list_to_set (get_terms w p2).
Proof.
  intros Hwf Hmemo. unfold union_terms.
  destruct (expr_spec p1 σ Hwf)
    as (i1 & e1 & σ1 & Hrun1 & Hwf1 & Hp1 & Hi1 & Hpr1 & Hold1 & _).
  destruct (expr_spec p2 σ1 Hwf1)
    as (i2 & e2 & σ2 & Hrun2 & Hwf2 & Hp2 & Hi2 & Hpr2 & _ & Hkeep).
  destruct (Hkeep p1 i1 Hp1) as [Hp1' Hi1'].
  rewrite Hi1 in Hi1'.
  unfold bind at 1. rewrite Hrun1.
  unfold bind at 1. rewrite Hrun2.
  unfold bind at 1.
  destruct (decide (p1 = p2)) as [<-|Hne].
  - (* the same Property: the union is its expression *)
    assert (i2 = i1) as -> by congruence.
    unfold __or__. rewrite decide_True by done. unfold ret.
    destruct (to_terms_of_spec w σ2 i1 e1 Hi1') as (σ' & ->).
    eexists _, _. split; [reflexivity|].
    assert (Hts : (to_terms w e1).1 = terms_provider w (root [p1])).
    { unfold to_terms. destruct (terms e1) as [ts|] eqn:Hterms; simpl.
      - destruct (Hold1 ts eq_refl) as [Hq Hi]. by eapply Hmemo.
      - by rewrite Hpr1. }
    rewrite Hts. simpl. rewrite app_nil_r. by rewrite union_idemp_L.
  - (* two properties: a new expression that chains both *)
    assert (Hi : i1 ≠ i2).
    { intros ->. rewrite Hi2 in Hi1'. injection Hi1' as ->.
      rewrite Hpr1 in Hpr2. by injection Hpr2 as ->. }
    destruct Hwf2 as [Hdom2 _].
    destruct (or_spec σ2 i1 i2 e1 e2) as (σ3 & -> & Hnew);
      [done|apply Hdom2; by rewrite Hi1'|apply Hdom2; by rewrite Hi2
      |done|done|].
    destruct (to_terms_of_spec w σ3 _ _ Hnew) as (σ' & ->).
    eexists _, _. split; [reflexivity|].
    unfold to_terms, new_PropertyExpr. simpl.
    rewrite Hpr1, Hpr2. simpl. rewrite !app_nil_r.
    by rewrite list_to_set_app_L.
Qed.

End PropertyExprFacts.

Section PropertyExprExamples.

Import PropertyExpr.

Lemma to_dict_single_valued_witness :
  ((to_dict example_world false example_union).1 = Raise PropertyExprError
   ↔ two_objects (triples_provider example_world (providers example_union))) ∧
  (¬ two_objects (triples_provider example_world (providers example_union)) →
   ∃ res, to_dict example_world false example_union =
            (Ok (SingleDict res),
             mkExpr (props example_union) (providers example_union)
                    (terms example_union) (Some (SingleDict res))
                    (combos example_union)) ∧
          ∀ s o, res !! s = Some o ↔
                 ∃ p, (s, p, o) ∈ triples_provider example_world
                                    (providers example_union)).
Proof. apply (to_dict_single_valued example_world example_union). reflexivity. Defined.

Lemma to_terms_memoizes_witness :
  (to_terms example_world example_union).1 = [5; 6] ∧
  terms (to_terms example_world example_union).2 = Some [5; 6] ∧
  ∀ w', to_terms w' (to_terms example_world example_union).2
        = to_terms example_world example_union.
Proof. apply (to_terms_memoizes example_world example_union). reflexivity. Defined.

(** C7, as stated, fails: two properties that both yield the term 5 make
    [(p1.expr | p2.expr).to_terms()] hold it twice. *)
Lemma to_terms_keeps_duplicates :
  (union_terms example_world 1 2 empty_store).1 = Ok [5; 5] ∧ ¬ NoDup [5; 5].
Proof.
  split; [reflexivity|].
  intros Hnd. apply NoDup_cons in Hnd as [Hnin _]. apply Hnin. constructor.
Qed.

Lemma union_law_witness :
  ∃ ts σ',
    union_terms later_world 1 2 empty_store = (Ok ts, σ') ∧
    list_to_set ts =@{gset nat} list_to_set [5; 7] ∪ list_to_set [5].
Proof.
  apply (union_law later_world empty_store 1 2).
  - split.
    + intros i [e He]. simpl in He. by rewrite lookup_empty in He.
    + intros p i Hp. simpl in Hp. by rewrite lookup_empty in Hp.
  - discriminate.
Defined.

Lemma to_dict_cached_witness :
  ∃ d e', to_dict example_world true example_union = (Ok d, e') ∧
          dict e' = Some d ∧
          ∀ w' m', to_dict w' m' e' = (Ok d, e').
Proof.
  eexists _, _. split; [reflexivity|].
  apply (to_dict_cached example_world true example_union _ _ eq_refl).
Defined.

End PropertyExprExamples.

(** * Properties of the construction of data sources *)

Section DataSourceFacts.

Import DataSource.

Context {Value : Type}.

Variable py_ne : Value → Value → bool.
Variable DataObject___init__ : gmap string (option Value) → option exn.

Implicit Types (vals : gmap string (gmap string (option Value)))
               (pairs : list (string * Value))
               (fields : list (string * Informational (Value := Value))).

(** Writing ['i'], ['e'] or ['d'] leaves every ['a'] entry alone. *)
Lemma a_slot_vals_set n k (v : option Value) vals t :
  k ≠ "a"%string → a_slot (vals_set n k v vals) t = a_slot vals t.
Proof.
  intros Hk. unfold a_slot, vals_set.
  destruct (decide (n = t)) as [->|Hne].
  - rewrite lookup_insert_eq. simpl. by rewrite lookup_insert_ne.
  - by rewrite lookup_insert_ne.
Qed.

Lemma records_ext vals vals' pairs :
  (∀ t, a_slot vals' t = a_slot vals t) → records vals pairs → records vals' pairs.
Proof.
  intros Hext [Hsound Hcompl]. split.
  - intros t x. rewrite Hext. apply Hsound.
  - intros t v. rewrite Hext. apply Hcompl.
Qed.

Lemma clash_app_l pairs pairs' : clash pairs → clash (pairs ++ pairs').
Proof.
  intros (t & v1 & v2 & H1 & H2 & Hne). exists t, v1, v2.
  rewrite !elem_of_app. auto.
Qed.

Lemma records_no_clash vals pairs : records vals pairs → ¬ clash pairs.
Proof.
  intros [_ Hcompl] (t & v1 & v2 & H1 & H2 & Hne).
  apply Hcompl in H1, H2. congruence.
Qed.

Lemma records_empty :
  records (∅ : gmap string (gmap string (option Value))) [].
Proof.
  split.
  - intros t x. unfold a_slot. by rewrite !lookup_empty.
  - intros t v Hin. by apply elem_of_nil in Hin.
Qed.

(** The inner loop, for a value that is not [None] and a [!=] that is the
    negation of equality. *)
Lemma also_loop_spec (v : Value) alsos :
  (∀ x y, py_ne x y = false ↔ x = y) →
  ∀ vals pairs,
    records vals pairs →
    match also_loop py_ne (Some v) alsos vals with
    | Ok vals' => records vals' (pairs ++ ((λ t, (t, v)) <$> alsos))
    | Raise ex =>
        ex = DuplicateAlsoException ∧ clash (pairs ++ ((λ t, (t, v)) <$> alsos))
    | Stuck => False
    end.
Proof.
  intros Hne.
  induction alsos as [|t alsos IH]; intros vals pairs Hrec; csimpl.
  - by rewrite app_nil_r.
  - unfold also_step, setdefault. fold (a_slot vals t).
    destruct Hrec as [Hsound Hcompl].
    rewrite (cons_middle (t, v) pairs), app_assoc.
    destruct (a_slot vals t) as [x|] eqn:Hslot; simpl.
    + destruct (Hsound t x Hslot) as (v1 & -> & Hin1). simpl.
      destruct (py_ne v1 v) eqn:Hcmp.
      * split; [done|]. apply clash_app_l.
        exists t, v1, v. rewrite !elem_of_app.
        split; [by left|]. split; [right; constructor|].
        intros Heq. apply Hne in Heq. congruence.
      * apply Hne in Hcmp. subst v1. apply IH. split.
        -- intros t0 x. intros Hx.
           assert (Hx' : a_slot vals t0 = Some x).
           { revert Hx. unfold a_slot.
             destruct (decide (t = t0)) as [->|Hne'].
             - by rewrite lookup_insert_eq.
             - by rewrite lookup_insert_ne. }
           destruct (Hsound t0 x Hx') as (v1 & -> & Hin).
           exists v1. split; [done|]. apply elem_of_app. by left.
        -- intros t0 v0 Hin.
           assert (Hx : a_slot vals t0 = Some (Some v0)).
           { apply elem_of_app in Hin as [Hin|Hin]; [by apply Hcompl|].
             apply list_elem_of_singleton in Hin. by simplify_eq. }
           revert Hx. unfold a_slot.
           destruct (decide (t = t0)) as [->|Hne'].
           ++ by rewrite lookup_insert_eq.
           ++ by rewrite lookup_insert_ne.
    + rewrite (proj2 (Hne v v) eq_refl).
      apply IH. split.
      * intros t0 x. unfold a_slot.
        destruct (decide (t = t0)) as [->|Hne'].
        -- rewrite lookup_insert_eq. simpl. rewrite lookup_insert_eq.
           intros [= <-]. exists v. split; [done|].
           apply elem_of_app. right. by apply list_elem_of_singleton.
        -- rewrite lookup_insert_ne by done. intros Hx.
           destruct (Hsound t0 x Hx) as (v1 & -> & Hin).
           exists v1. split; [done|]. apply elem_of_app. by left.
      * intros t0 v0 Hin. unfold a_slot.
        destruct (decide (t = t0)) as [->|Hne'].
        -- rewrite lookup_insert_eq. simpl. rewrite lookup_insert_eq.
           apply elem_of_app in Hin as [Hin|Hin].
           ++ apply Hcompl in Hin. congruence.
           ++ apply list_elem_of_singleton in Hin. by simplify_eq.
        -- rewrite lookup_insert_ne by done.
           apply elem_of_app in Hin as [Hin|Hin]; [by apply Hcompl|].
           apply list_elem_of_singleton in Hin. by simplify_eq.
Qed.

(** A value [None] is passed on to nobody. *)
Lemma also_loop_None alsos vals : also_loop py_ne None alsos vals = Ok vals.
Proof. induction alsos as [|t alsos IH]; simpl; [done|apply IH]. Qed.

(** The outer loop keeps the ['a'] entries in step with the pairs passed
    on so far, and raises exactly when a new pair disagrees with one of
    them. *)
Lemma fields_loop_spec new_kwargs fields :
  (∀ x y, py_ne x y = false ↔ x = y) →
  ∀ vals pairs,
    records vals pairs →
    match fields_loop py_ne new_kwargs fields vals with
    | Ok vals' => records vals' (pairs ++ passed_on new_kwargs fields)
    | Raise ex =>
        ex = DuplicateAlsoException ∧ clash (pairs ++ passed_on new_kwargs fields)
    | Stuck => False
    end.
Proof.
  intros Hne.
  induction fields as [|[n inf] fields IH]; intros vals pairs Hrec; simpl.
  - unfold passed_on. simpl. by rewrite app_nil_r.
  - unfold passed_on. csimpl. fold (passed_on new_kwargs fields).
    unfold field_step.
    set (vals3 := vals_set n "d" _ _).
    assert (Hrec3 : records vals3 pairs).
    { eapply records_ext; [|exact Hrec]. intros t. unfold vals3.
      rewrite a_slot_vals_set by done.
      destruct (default_override inf);
        [rewrite a_slot_vals_set by done|];
        (destruct (default None (new_kwargs !! n));
         [by rewrite a_slot_vals_set|done]). }
    destruct (passed_value new_kwargs n inf) as [v|] eqn:Hv.
    + pose proof (also_loop_spec v (also inf) Hne vals3 pairs Hrec3) as Hinner.
      rewrite app_assoc.
      destruct (also_loop py_ne (Some v) (also inf) vals3) as [vals'|ex|]; [| |done].
      * by apply IH.
      * destruct Hinner as [-> Hclash]. split; [done|]. by apply clash_app_l.
    + rewrite also_loop_None. simpl. by apply IH.
Qed.

(** A keyword argument that names a field is found among [new_kwargs]. *)
Lemma new_kwargs_of_lookup fields (kwargs : gmap string (option Value)) n inf :
  (n, inf) ∈ fields → new_kwargs_of fields kwargs !! n = kwargs !! n.
Proof.
  intros Hin. unfold new_kwargs_of. rewrite map_lookup_filter.
  destruct (kwargs !! n) as [x|]; simpl; [|done].
  rewrite option_guard_True; [done|].
  simpl. apply list_elem_of_fmap. by exists (n, inf).
Qed.

(** The keyword arguments are split in two: those that name a field stay
    with [__init__], the others go to the constructor of the parent
    class. *)
Lemma parent_kwargs_of_lookup fields (kwargs : gmap string (option Value)) k :
  parent_kwargs_of fields kwargs !! k =
  if decide (k ∈ fields.*1) then None else kwargs !! k.
Proof.
  unfold parent_kwargs_of. rewrite map_lookup_filter.
  destruct (kwargs !! k) as [x|]; simpl.
  - destruct (decide (k ∈ fields.*1)) as [Hin|Hnin].
    + by rewrite option_guard_False by (simpl; tauto).
    + by rewrite option_guard_True.
  - by destruct (decide _).
Qed.

Lemma passed_value_new_kwargs fields (kwargs : gmap string (option Value)) n inf :
  (n, inf) ∈ fields →
  passed_value (new_kwargs_of fields kwargs) n inf = passed_value kwargs n inf.
Proof.
  intros Hin. unfold passed_value. by rewrite (new_kwargs_of_lookup _ _ _ _ Hin).
Qed.

(** The value that the loop passes on is the value that the field
    supplies, in the words of the specification. *)
Lemma passed_value_supplies (kwargs : gmap string (option Value)) n inf v :
  passed_value kwargs n inf = Some v ↔ supplies kwargs n inf v.
Proof.
  unfold passed_value, supplies.
  destruct (kwargs !! n) as [[x|]|]; simpl.
  - split.
    + intros [= ->]. by left.
    + intros [[= ->]|[[?|?] _]]; done.
  - split.
    + intros Hd. right. split; [by right|done].
    + intros [?|[_ Hd]]; done.
  - split.
    + intros Hd. right. split; [by left|done].
    + intros [?|[_ Hd]]; done.
Qed.

Lemma elem_of_passed_on new_kwargs fields t (v : Value) :
  (t, v) ∈ passed_on new_kwargs fields ↔
  ∃ n inf, (n, inf) ∈ fields ∧ t ∈ also inf ∧
           passed_value new_kwargs n inf = Some v.
Proof.
  unfold passed_on. rewrite list_elem_of_bind. split.
  - intros ([n inf] & Hin & Hf). simpl in Hin.
    destruct (passed_value new_kwargs n inf) as [v'|] eqn:Hv.
    + apply list_elem_of_fmap in Hin as (t' & [= -> ->] & Ht).
      by exists n, inf.
    + by apply elem_of_nil in Hin.
  - intros (n & inf & Hf & Ht & Hv). exists (n, inf). split; [|done].
    simpl. rewrite Hv. apply list_elem_of_fmap. by exists t.
Qed.

(** The pairs passed on, in terms of the keyword arguments of the call. *)
Lemma elem_of_passed_on_supplies fields (kwargs : gmap string (option Value)) t v :
  (t, v) ∈ passed_on (new_kwargs_of fields kwargs) fields ↔
  ∃ n inf, (n, inf) ∈ fields ∧ t ∈ also inf ∧ supplies kwargs n inf v.
Proof.
  rewrite elem_of_passed_on. split.
  - intros (n & inf & Hf & Ht & Hv). exists n, inf.
    rewrite passed_value_new_kwargs in Hv by done.
    by apply passed_value_supplies in Hv.
  - intros (n & inf & Hf & Ht & Hv). exists n, inf.
    rewrite passed_value_new_kwargs by done.
    by apply passed_value_supplies in Hv.
Qed.

(** C9, as amended. What the constructor of the parent class raises is
    what the construction raises, whatever the alias sources supply. When
    it returns, and for values whose [!=] is the negation of equality, the
    construction raises [DuplicateAlsoException] iff two alias sources
    supply differing values, neither of them [None], for the same
    also-name; sources that agree, or a single source, do not raise. *)
Theorem init_raises_iff_also_conflict
    (class_info_fields : list (Informational (Value := Value)))
    (kwargs : gmap string (option Value)) :
  (∀ x y, py_ne x y = false ↔ x = y) →
  (∀ e, DataObject___init__
          (parent_kwargs_of (info_fields class_info_fields) kwargs) = Some e →
        __init___vals py_ne DataObject___init__ class_info_fields kwargs = Raise e) ∧
  (DataObject___init__
     (parent_kwargs_of (info_fields class_info_fields) kwargs) = None →
   (__init___vals py_ne DataObject___init__ class_info_fields kwargs
      = Raise DuplicateAlsoException
    ↔ also_conflict class_info_fields kwargs)).
Proof.
  intros Hne. unfold __init___vals, also_conflict.
  set (fields := info_fields class_info_fields).
  set (new_kwargs := new_kwargs_of fields kwargs).
  split; [by intros e ->|]. intros ->.
  assert (Hclash : clash (passed_on new_kwargs fields) ↔
            ∃ n1 inf1 n2 inf2 target v1 v2,
              (n1, inf1) ∈ fields ∧ (n2, inf2) ∈ fields ∧
              target ∈ also inf1 ∧ target ∈ also inf2 ∧
              supplies kwargs n1 inf1 v1 ∧
              supplies kwargs n2 inf2 v2 ∧ v1 ≠ v2).
  { unfold clash. split.
    - intros (t & v1 & v2 & H1 & H2 & Hdiff).
      apply elem_of_passed_on_supplies in H1 as (n1 & inf1 & Hf1 & Ht1 & Hv1).
      apply elem_of_passed_on_supplies in H2 as (n2 & inf2 & Hf2 & Ht2 & Hv2).
      by exists n1, inf1, n2, inf2, t, v1, v2.
    - intros (n1 & inf1 & n2 & inf2 & t & v1 & v2 &
              Hf1 & Hf2 & Ht1 & Ht2 & Hv1 & Hv2 & Hdiff).
      exists t, v1, v2. unfold new_kwargs.
      rewrite !elem_of_passed_on_supplies.
      split; [by exists n1, inf1|split; [by exists n2, inf2|done]]. }
  rewrite <- Hclash.
  pose proof (fields_loop_spec new_kwargs fields Hne ∅ [] records_empty) as Hloop.
  simpl in Hloop.
  destruct (fields_loop py_ne new_kwargs fields ∅) as [vals'|ex|]; [| |done].
  - split; [done|]. intros Hc. by apply records_no_clash in Hloop.
  - destruct Hloop as [-> Hc]. done.
Qed.

(** After the constructor of the parent class has returned, the first loop
    never gets stuck and raises nothing else. *)
Lemma init_vals_outcome
    (class_info_fields : list (Informational (Value := Value)))
    (kwargs : gmap string (option Value)) :
  (∀ x y, py_ne x y = false ↔ x = y) →
  DataObject___init__
    (parent_kwargs_of (info_fields class_info_fields) kwargs) = None →
  (∃ vals, __init___vals py_ne DataObject___init__ class_info_fields kwargs = Ok vals) ∨
  __init___vals py_ne DataObject___init__ class_info_fields kwargs
    = Raise DuplicateAlsoException.
Proof.
  intros Hne. unfold __init___vals. intros ->.
  set (fields := info_fields class_info_fields).
  set (new_kwargs := new_kwargs_of fields kwargs).
  pose proof (fields_loop_spec new_kwargs fields Hne ∅ [] records_empty) as Hloop.
  simpl in Hloop.
  destruct (fields_loop py_ne new_kwargs fields ∅) as [vals'|ex|]; [| |done].
  - left. by eexists.
  - right. by destruct Hloop as [-> _].
Qed.

End DataSourceFacts.

Section DataSourceExamples.

Import DataSource.

(** [a] passes its default 1 and [b] the argument 2 on to [c]: raised. *)
Example also_differ :
  __init___vals nat_ne accepting abc_fields (<["b" := Some 2]> ∅)
  = Raise DuplicateAlsoException.
Proof. vm_compute. reflexivity. Qed.

(** [a] and [b] agree on 1: not raised. *)
Example also_agree :
  ∃ vals, __init___vals nat_ne accepting abc_fields (<["b" := Some 1]> ∅) = Ok vals ∧
          a_slot vals "c" = Some (Some 1).
Proof. eexists. split; vm_compute; reflexivity. Qed.

(** Only [a] passes a value on: not raised. *)
Example also_single :
  ∃ vals, __init___vals nat_ne accepting abc_fields ∅ = Ok vals ∧
          a_slot vals "c" = Some (Some 1).
Proof. eexists. split; vm_compute; reflexivity. Qed.

(** The class [abc_fields], constructed with [b=2] and a parent constructor
    that returns: the construction raises, as [a] supplies its default 1
    and [b] the argument 2 for [c]. *)
Lemma init_raises_iff_also_conflict_witness :
  __init___vals nat_ne accepting abc_fields (<["b"%string := Some 2]> ∅)
    = Raise DuplicateAlsoException
  ↔ also_conflict abc_fields (<["b"%string := Some 2]> ∅).
Proof.
  destruct (init_raises_iff_also_conflict nat_ne accepting abc_fields
              (<["b"%string := Some 2]> ∅)) as [_ Hiff].
  - intros x y. unfold nat_ne. rewrite negb_false_iff. apply Nat.eqb_eq.
  - apply Hiff. reflexivity.
Defined.

(** The claim C9 fails for a NaN: with [a] the only alias source of the
    class and [a=float('nan')], the construction raises
    [DuplicateAlsoException], since [setdefault] returns the NaN just
    stored and a NaN differs from itself; no two sources supply differing
    values. *)
Theorem single_nan_source_raises :
  __init___vals float_ne accepting ac_fields (<["a"%string := Some NaN]> ∅)
    = Raise DuplicateAlsoException ∧
  ¬ also_conflict ac_fields (<["a"%string := Some NaN]> ∅).
Proof.
  split; [vm_compute; reflexivity|].
  intros (n1 & inf1 & n2 & inf2 & t & v1 & v2 &
          Hf1 & Hf2 & Ht1 & Ht2 & Hv1 & Hv2 & Hdiff).
  assert (Hsrc : ∀ n inf v,
            (n, inf) ∈ info_fields ac_fields → t ∈ also inf →
            supplies (<["a"%string := Some NaN]> ∅) n inf v → v = NaN).
  { intros n inf v Hf Ht Hv.
    assert (Hfields : info_fields ac_fields =
              [("a"%string, mkInformational "a" None None ["c"%string]);
               ("c"%string, mkInformational "c" None None [])])
      by (vm_compute; reflexivity).
    rewrite Hfields in Hf.
    apply elem_of_cons in Hf as [Hf|Hf].
    - injection Hf as -> ->. destruct Hv as [Hv|[[Hv|Hv] _]].
      + rewrite lookup_insert_eq in Hv. by simplify_eq.
      + by rewrite lookup_insert_eq in Hv.
      + by rewrite lookup_insert_eq in Hv.
    - apply list_elem_of_singleton in Hf. injection Hf as -> ->.
      simpl in Ht. by apply elem_of_nil in Ht. }
  apply Hdiff. by rewrite (Hsrc n1 inf1 v1), (Hsrc n2 inf2 v2).
Qed.

End DataSourceExamples.

(** * More on the Property value store: back-references *)

Section BackReferences.

Import PropertyStore.

Lemma list_remove_is_Some `{EqDecision A} (x : A) (l : list A) :
  is_Some (list_remove x l) ↔ x ∈ l.
Proof.
  induction l as [|y l IH]; simpl.
  - split; [by intros [? ?]|intros Hin; by apply elem_of_nil in Hin].
  - destruct (decide (x = y)) as [->|Hne].
    + split; [intros _; left|by eexists].
    + rewrite elem_of_cons, <- IH. destruct (list_remove x l); simpl.
      * split; [by right|by eexists].
      * split; [by intros [? ?]|intros [?|[? ?]]; done].
Qed.

Lemma list_remove_Permutation `{EqDecision A} (x : A) (l l' : list A) :
  list_remove x l = Some l' → l ≡ₚ x :: l'.
Proof.
  revert l'. induction l as [|y l IH]; intros l'; simpl; [done|].
  destruct (decide (x = y)) as [->|Hne]; [by intros [= ->]|].
  destruct (list_remove x l) as [l0|]; simpl; [|done].
  intros [= <-]. rewrite (IH l0 eq_refl). apply Permutation_swap.
Qed.

Lemma list_remove_sublist `{EqDecision A} (x : A) (l l' : list A) :
  list_remove x l = Some l' → l' `sublist_of` l.
Proof.
  revert l'. induction l as [|y l IH]; intros l'; simpl; [done|].
  destruct (decide (x = y)) as [->|Hne]; [intros [= ->]; by apply sublist_cons|].
  destruct (list_remove x l) as [l0|]; simpl; [|done].
  intros [= <-]. apply sublist_skip. by apply IH.
Qed.

Lemma list_remove_filter_length `{EqDecision A} (P : A → Prop)
    `{∀ x, Decision (P x)} (x : A) (l l' : list A) :
  list_remove x l = Some l' →
  length (filter P l) = length (filter P l') + (if decide (P x) then 1 else 0).
Proof.
  intros Hrm. apply list_remove_Permutation in Hrm. rewrite Hrm.
  rewrite filter_cons. destruct (decide (P x)); simpl; lia.
Qed.

Lemma filter_sublist_mono {A} (P : A → Prop) `{∀ x, Decision (P x)} (l1 l2 : list A) :
  l1 `sublist_of` l2 → filter P l1 `sublist_of` filter P l2.
Proof.
  induction 1 as [|x l1 l2 _ IH|x l1 l2 _ IH]; [done| |].
  - rewrite !filter_cons. destruct (decide (P x)); [by apply sublist_skip|done].
  - rewrite filter_cons. destruct (decide (P x)); [by apply sublist_cons|done].
Qed.

(** Only [alloc] changes whether an object is defined. *)
Lemma defined_of_set_owner_properties o l h o' :
  defined_of (set_owner_properties o l h) o' = defined_of h o'.
Proof.
  unfold defined_of, set_owner_properties.
  destruct (decide (o = o')) as [->|Hne].
  - rewrite lookup_insert_eq. simpl. by destruct (h !! o').
  - by rewrite lookup_insert_ne.
Qed.

Lemma owner_properties_of_set_ne o o' l h :
  o ≠ o' → owner_properties_of (set_owner_properties o l h) o' = owner_properties_of h o'.
Proof.
  intros Hne. unfold owner_properties_of, set_owner_properties.
  by rewrite lookup_insert_ne.
Qed.

(** A Statement held is backed by a back-reference. *)
Lemma backrefs_counted_elem st x :
  backrefs_counted st → x ∈ _v (prop st) →
  self (prop st) ∈ owner_properties_of (heap st) (object x).
Proof.
  intros Hcount Hx. specialize (Hcount (object x)).
  assert (Hpos : 0 < length (filter (λ y, object y = object x) (_v (prop st)))).
  { assert (Hin : x ∈ filter (λ y, object y = object x) (_v (prop st)))
      by (by apply list_elem_of_filter).
    destruct (filter _ (_v (prop st))); [by apply elem_of_nil in Hin|simpl; lia]. }
  rewrite <- Hcount in Hpos.
  destruct (filter _ (owner_properties_of _ _)) as [|p ps] eqn:Hf; [simpl in Hpos; lia|].
  assert (Hp : p ∈ filter (λ p, p = self (prop st))
                 (owner_properties_of (heap st) (object x)))
    by (rewrite Hf; left).
  apply list_elem_of_filter in Hp as [-> Hp]. done.
Qed.

(** One round of the loop of [clear] keeps the count. *)
Lemma clear_step_counted st x ops lv :
  backrefs_counted st →
  list_remove (self (prop st)) (owner_properties_of (heap st) (object x)) = Some ops →
  list_remove x (_v (prop st)) = Some lv →
  backrefs_counted
    (with_v (λ _, lv) (with_heap (set_owner_properties (object x) ops) st)).
Proof.
  intros Hcount Hops Hlv o. specialize (Hcount o). simpl.
  pose proof (list_remove_filter_length (λ y, object y = o) _ _ _ Hlv) as Hv.
  destruct (decide (object x = o)) as [<-|Hne].
  - rewrite owner_properties_of_set.
    pose proof (list_remove_filter_length (λ p, p = self (prop st)) _ _ _ Hops) as Ho.
    rewrite decide_True in Ho by done. lia.
  - rewrite owner_properties_of_set_ne by done. lia.
Qed.

(** With the back-references counted, the loop of [clear] fails neither
    its assertion nor a removal. *)
Lemma clear_loop_counted fuel :
  ∀ i st,
    backrefs_counted st →
    length (_v (prop st)) - i < fuel →
    ∃ st', clear_loop fuel i st = (Ok tt, st') ∧ backrefs_counted st'.
Proof.
  induction fuel as [|fuel IH]; intros i st Hcount Hfuel; [lia|]. simpl.
  destruct (_v (prop st) !! i) as [x|] eqn:Hx; [|by exists st].
  assert (Hin : x ∈ _v (prop st)) by (by eapply list_elem_of_lookup_2).
  pose proof (backrefs_counted_elem st x Hcount Hin) as Hback.
  destruct (list_remove_elem _ _ Hback) as [ops Hops].
  destruct (list_remove_elem _ _ Hin) as [lv Hlv].
  unfold bind at 1, assert_. rewrite bool_decide_eq_true_2 by done.
  unfold ret at 1. unfold bind at 1, owner_properties_remove at 1. rewrite Hops.
  unfold bind at 1, _v_remove at 1. simpl. rewrite Hlv.
  apply IH.
  - by apply clear_step_counted.
  - simpl. apply list_remove_length in Hlv. apply lookup_lt_Some in Hx. lia.
Qed.

(** Whatever its outcome, the loop of [clear] keeps the identity of the
    Property, its cache, the allocation pointer, the Statement sets of the
    contexts and the [defined] state of every object; the Statements left
    are a sublist of those before. *)
Lemma clear_loop_keeps fuel :
  ∀ i st,
    let st' := (clear_loop fuel i st).2 in
    self (prop st') = self (prop st) ∧ owner (prop st') = owner (prop st) ∧
    multiple (prop st') = multiple (prop st) ∧ _hdf (prop st') = _hdf (prop st) ∧
    next_id st' = next_id st ∧ statements st' = statements st ∧
    _v (prop st') `sublist_of` _v (prop st) ∧
    ∀ o, defined_of (heap st') o = defined_of (heap st) o.
Proof.
  induction fuel as [|fuel IH]; intros i st; simpl; [done|].
  destruct (_v (prop st) !! i) as [x|]; [|done].
  unfold bind, assert_. case_bool_decide; [|done].
  unfold ret, owner_properties_remove.
  destruct (list_remove _ (owner_properties_of _ _)) as [ops|]; [|done].
  unfold _v_remove. simpl.
  destruct (list_remove x (_v (prop st))) as [lv|] eqn:El.
  2:{ simpl. repeat (split; [done|]).
      intros o. apply defined_of_set_owner_properties. }
  match goal with
  | |- context [clear_loop fuel (S i) ?s] =>
      destruct (IH (S i) s) as (Hs & Ho & Hm & Hh & Hn & Hst & Hv & Hd)
  end.
  simpl in *. rewrite Hs, Ho, Hm, Hh, Hn, Hst.
  repeat (split; [done|]). split.
  - etrans; [exact Hv|]. by eapply list_remove_sublist.
  - intros o. rewrite Hd. apply defined_of_set_owner_properties.
Qed.

Lemma clear_eq st :
  clear st = clear_loop (S (length (_v (prop st)))) 0 (with_hdf (λ _, ∅) st).
Proof. reflexivity. Qed.

(** [set] from the test of [multiple] on, in one step. *)
Lemma set_value_eq ctx o st :
  set_value ctx o st =
    match (if negb (multiple (prop st)) then clear else ret tt) st with
    | (Ok _, st2) => (Ok (mkStatement (owner (prop st2)) (self (prop st2)) o ctx),
                      inserted ctx o st2)
    | (Raise e, st2) => (Raise e, st2)
    | (Stuck, st2) => (Stuck, st2)
    end.
Proof.
  unfold set_value. unfold bind at 1, gets at 1. unfold bind at 1.
  destruct ((if negb (multiple (prop st)) then clear else ret tt) st)
    as [[[]|e|] st2]; [|done|done].
  unfold bind at 1. rewrite _insert_value_eq.
  destruct ctx; reflexivity.
Qed.

Lemma inserted_counted ctx o st :
  backrefs_counted st → backrefs_counted (inserted ctx o st).
Proof.
  intros Hcount o'. specialize (Hcount o'). unfold inserted. simpl.
  rewrite filter_app, length_app.
  destruct (decide (o = o')) as [->|Hne].
  - rewrite owner_properties_of_set, filter_app, length_app.
    rewrite Hcount. f_equal.
    rewrite !filter_cons, !filter_nil. simpl. by rewrite !decide_True.
  - rewrite owner_properties_of_set_ne by done.
    rewrite Hcount. rewrite filter_cons, filter_nil. simpl.
    rewrite decide_False by done. simpl. lia.
Qed.

Lemma clear_counted st :
  backrefs_counted st →
  ∃ st', clear st = (Ok tt, st') ∧ backrefs_counted st'.
Proof.
  intros Hcount. rewrite clear_eq. apply clear_loop_counted; [done|]. simpl. lia.
Qed.

(** X1. In a store whose back-references are counted, that is, where every
    object lists the Property exactly as often as the Property holds a
    Statement on it, [clear] fails neither its assertion nor a removal: it
    returns, and the back-references are still counted (also for the
    Statements that its loop steps over). *)
Theorem clear_returns_and_keeps_count st :
  backrefs_counted st →
  ∃ st', clear st = (Ok tt, st') ∧ backrefs_counted st'.
Proof. apply clear_counted. Qed.

Lemma set_counted ctx v st :
  v ≠ PyNone →
  (∀ x, x ∈ _v (prop st) → object x < next_id st) →
  backrefs_counted st →
  let stmt := mkStatement (owner (prop st)) (self (prop st)) (stored_object st v) ctx in
  ∃ st', set ctx v st = (Ok stmt, st') ∧
         last (_v (prop st')) = Some stmt ∧
         backrefs_counted st'.
Proof.
  intros Hv Hobj Hcount stmt.
  assert (Hbody : ∀ o st1,
            prop st1 = prop st → backrefs_counted st1 →
            ∃ st', set_value ctx o st1
                     = (Ok (mkStatement (owner (prop st)) (self (prop st)) o ctx), st') ∧
                   last (_v (prop st')) =
                     Some (mkStatement (owner (prop st)) (self (prop st)) o ctx) ∧
                   backrefs_counted st').
  { intros o st1 Hprop Hc1. rewrite set_value_eq.
    assert (Hrun : ∃ st2, (if negb (multiple (prop st1)) then clear else ret tt) st1
                          = (Ok tt, st2) ∧ backrefs_counted st2 ∧
                          self (prop st2) = self (prop st1) ∧
                          owner (prop st2) = owner (prop st1)).
    { destruct (multiple (prop st1)); simpl.
      - by exists st1.
      - destruct (clear_counted st1 Hc1) as (st2 & Hrun & Hc2).
        exists st2. split; [done|]. split; [done|].
        rewrite clear_eq in Hrun.
        pose proof (clear_loop_keeps (S (length (_v (prop st1)))) 0
                      (with_hdf (λ _, ∅) st1)) as Hk.
        rewrite Hrun in Hk. simpl in Hk. by destruct Hk as (? & ? & _). }
    destruct Hrun as (st2 & -> & Hc2 & Hs & Ho).
    rewrite Hs, Ho, Hprop. eexists. split; [reflexivity|].
    split; [|by apply inserted_counted].
    unfold inserted. simpl. rewrite last_snoc. by rewrite Hs, Ho, Hprop. }
  destruct v as [|z|o]; [done| |].
  - unfold set. unfold bind at 1, alloc at 1.
    apply Hbody; [done|].
    intros o. specialize (Hcount o). simpl.
    destruct (decide (o = next_id st)) as [->|Hne].
    + unfold owner_properties_of. rewrite lookup_insert_eq. simpl.
      destruct (filter _ (_v (prop st))) as [|x l] eqn:Hf; [done|].
      assert (Hx : x ∈ filter (λ x, object x = next_id st) (_v (prop st)))
        by (rewrite Hf; left).
      apply list_elem_of_filter in Hx as [Hx1 Hx2]. apply Hobj in Hx2. lia.
    + unfold owner_properties_of. rewrite lookup_insert_ne by done. exact Hcount.
  - by apply Hbody.
Qed.

(** X2. In such a store, whose Statements point to existing objects, [set]
    of any value but [None] returns the new Statement, which is the last one
    held, and the back-references are counted afterwards. *)
Theorem set_returns_and_keeps_count ctx v st :
  v ≠ PyNone →
  (∀ x, x ∈ _v (prop st) → object x < next_id st) →
  backrefs_counted st →
  let stmt := mkStatement (owner (prop st)) (self (prop st)) (stored_object st v) ctx in
  ∃ st', set ctx v st = (Ok stmt, st') ∧
         last (_v (prop st')) = Some stmt ∧
         backrefs_counted st'.
Proof. apply set_counted. Qed.

(** The example stores are as [set] leaves them. *)
Lemma example_store_counted b : backrefs_counted (example_store b).
Proof.
  intros o. simpl. unfold owner_properties_of.
  destruct (decide (o = 0)) as [->|H0]; [done|].
  destruct (decide (o = 1)) as [->|H1]; [done|].
  destruct (decide (o = 2)) as [->|H2]; [done|].
  by rewrite !lookup_insert_ne, lookup_empty.
Qed.

Lemma exec_set_counted ctx o st :
  (∀ x, x ∈ _v (prop st) → object x < next_id st) →
  backrefs_counted st →
  backrefs_counted (exec (set ctx (PyObject o)) st).
Proof.
  intros Hobj Hcount.
  destruct (set_counted ctx (PyObject o) st) as (st' & Hrun & _ & Hc); try done.
  unfold exec. by rewrite Hrun.
Qed.

Lemma two_values_counted : backrefs_counted two_values.
Proof.
  unfold two_values. apply exec_set_counted.
  - apply set_keeps_objects_exist; [by intros x Hx; apply elem_of_nil in Hx|].
    intros o [= <-]. simpl. lia.
  - apply exec_set_counted; [by intros x Hx; apply elem_of_nil in Hx|].
    apply example_store_counted.
Qed.

Lemma held_elsewhere_counted : backrefs_counted held_elsewhere.
Proof.
  unfold held_elsewhere. apply exec_set_counted;
    [by intros x Hx; apply elem_of_nil in Hx|apply example_store_counted].
Qed.

Lemma held_elsewhere_objects x :
  x ∈ _v (prop held_elsewhere) → object x < next_id held_elsewhere.
Proof.
  apply (set_keeps_objects_exist (Some 2) (PyObject 1) (example_store false)).
  - by intros y Hy; apply elem_of_nil in Hy.
  - intros o [= <-]. simpl. lia.
Qed.

Lemma clear_returns_and_keeps_count_witness :
  ∃ st', clear two_values = (Ok tt, st') ∧ backrefs_counted st'.
Proof.
  apply (clear_returns_and_keeps_count two_values). apply two_values_counted.
Defined.

Lemma set_returns_and_keeps_count_witness :
  ∃ st', set (Some 1) (PyScalar 5) held_elsewhere
           = (Ok (mkStatement 0 7 3 (Some 1)), st') ∧
         last (_v (prop st')) = Some (mkStatement 0 7 3 (Some 1)) ∧
         backrefs_counted st'.
Proof.
  apply (set_returns_and_keeps_count (Some 1) (PyScalar 5) held_elsewhere).
  - discriminate.
  - apply held_elsewhere_objects.
  - apply held_elsewhere_counted.
Defined.

(** X3. What [clear] does leave: when the Statements held are pairwise
    distinct and point to distinct objects that list the Property, [clear]
    returns with every second Statement still held; it empties the
    Property only if at most one Statement was held. *)
Theorem clear_keeps_every_second st :
  NoDup (_v (prop st)) →
  NoDup (object <$> _v (prop st)) →
  (∀ x, x ∈ _v (prop st) →
        self (prop st) ∈ owner_properties_of (heap st) (object x)) →
  (clear st).1 = Ok tt ∧
  _v (prop (exec clear st)) = every_second (_v (prop st)) ∧
  (_v (prop (exec clear st)) = [] ↔ length (_v (prop st)) ≤ 1).
Proof.
  intros Hnd Hobj Hback.
  destruct (clear_leaves_every_second st Hnd Hobj Hback) as [Hok Hv].
  split; [done|]. split; [done|]. rewrite Hv.
  destruct (_v (prop st)) as [|x [|y l]]; simpl; split; try done; try lia.
Qed.

Lemma clear_keeps_every_second_witness :
  (clear two_values).1 = Ok tt ∧
  _v (prop (exec clear two_values)) = every_second (_v (prop two_values)) ∧
  (_v (prop (exec clear two_values)) = [] ↔ length (_v (prop two_values)) ≤ 1).
Proof.
  assert (Hv : _v (prop two_values) = [mkStatement 0 7 1 None; mkStatement 0 7 2 None])
    by (vm_compute; reflexivity).
  apply (clear_keeps_every_second two_values).
  - rewrite Hv. apply NoDup_cons. split; [|apply NoDup_singleton].
    intros Hin. apply list_elem_of_singleton in Hin. discriminate.
  - rewrite Hv. simpl. apply NoDup_cons. split; [|apply NoDup_singleton].
    intros Hin. apply list_elem_of_singleton in Hin. discriminate.
  - intros x Hx. by apply backrefs_counted_elem; [apply two_values_counted|].
Defined.

(** X4. Whatever its outcome, [clear] only drops Statements of the
    Property and resets its cache: the Statements left are a sublist of
    those before, nothing is allocated, and the Statement sets of the
    contexts are not touched, so a Statement that [set] gave to its
    context stays there. *)
Theorem clear_only_drops st :
  _v (prop (exec clear st)) `sublist_of` _v (prop st) ∧
  _hdf (prop (exec clear st)) = ∅ ∧
  next_id (exec clear st) = next_id st ∧
  statements (exec clear st) = statements st.
Proof.
  unfold exec. rewrite clear_eq.
  destruct (clear_loop_keeps (S (length (_v (prop st)))) 0 (with_hdf (λ _, ∅) st))
    as (_ & _ & _ & Hh & Hn & Hst & Hv & Hd).
  by rewrite Hh, Hn, Hst.
Qed.

Lemma values_inserted ctx o st c :
  values c (inserted ctx o st) =
    values c st ++ (if decide (ctx = c) then [o] else []).
Proof.
  unfold values, inserted. simpl.
  rewrite filter_app, fmap_app. f_equal.
  rewrite filter_cons, filter_nil. simpl.
  destruct (decide (ctx = c)); done.
Qed.

Lemma has_value_values ctx st : has_value ctx st = true ↔ values ctx st ≠ [].
Proof.
  unfold has_value, values.
  induction (_v (prop st)) as [|x l IH]; simpl; [done|].
  rewrite filter_cons. destruct (decide (context x = ctx)) as [Heq|Hne].
  - rewrite bool_decide_eq_true_2 by done. simpl. done.
  - rewrite bool_decide_eq_false_2 by done. simpl. exact IH.
Qed.

(** The run of [set] on a value that is not [None]: it allocates for a
    scalar, clears or not, and inserts. *)
Lemma set_run ctx v st stmt st' :
  set ctx v st = (Ok stmt, st') →
  ∃ st2, st' = inserted ctx (object stmt) st2 ∧
         _v (prop st2) `sublist_of` _v (prop st) ∧
         (multiple (prop st) = true → _v (prop st2) = _v (prop st)).
Proof.
  assert (Hbody : ∀ o st1,
            _v (prop st1) = _v (prop st) → multiple (prop st1) = multiple (prop st) →
            set_value ctx o st1 = (Ok stmt, st') →
            ∃ st2, st' = inserted ctx (object stmt) st2 ∧
                   _v (prop st2) `sublist_of` _v (prop st) ∧
                   (multiple (prop st) = true → _v (prop st2) = _v (prop st))).
  { intros o st1 Hv Hm. rewrite set_value_eq, Hm.
    destruct (multiple (prop st)); simpl.
    - intros [= <- <-]. exists st1. by rewrite Hv.
    - rewrite clear_eq.
      pose proof (clear_loop_keeps (S (length (_v (prop st1)))) 0
                    (with_hdf (λ _, ∅) st1)) as Hk.
      destruct (clear_loop _ 0 _) as [[[]|e|] st2]; [|done|done].
      intros [= <- <-]. exists st2. simpl in *.
      destruct Hk as (_ & _ & _ & _ & _ & _ & Hsub & _).
      rewrite <- Hv. by split. }
  destruct v as [|z|o]; [done| |].
  - unfold set. unfold bind at 1, alloc at 1. by apply Hbody.
  - by apply Hbody.
Qed.

(** X5. Values are scoped by context. After [set] has returned under the
    context [ctx], the Property has a value there and the new object is the
    last of its [values]; under any other context the values are a sublist
    of those before, and exactly those before when [multiple] is true, in
    which case the values under [ctx] are those before followed by the new
    one. *)
Theorem set_is_scoped ctx v st stmt st' :
  set ctx v st = (Ok stmt, st') →
  has_value ctx st' = true ∧
  last (values ctx st') = Some (object stmt) ∧
  (∀ c, c ≠ ctx → values c st' `sublist_of` values c st) ∧
  (if multiple (prop st)
   then values ctx st' = values ctx st ++ [object stmt] ∧
        ∀ c, c ≠ ctx → values c st' = values c st
   else values ctx st' `sublist_of` values ctx st ++ [object stmt]).
Proof.
  intros Hrun. destruct (set_run ctx v st stmt st' Hrun) as (st2 & -> & Hsub & Heq).
  assert (Hvals : ∀ c, values c st2 `sublist_of` values c st).
  { intros c. unfold values. apply fmap_sublist. by apply filter_sublist_mono. }
  split.
  { apply has_value_values. rewrite values_inserted, decide_True by done.
    by destruct (values ctx st2). }
  split.
  { rewrite values_inserted, decide_True by done. apply last_snoc. }
  split.
  { intros c Hc. rewrite values_inserted, decide_False by done.
    rewrite app_nil_r. apply Hvals. }
  destruct (multiple (prop st)).
  - assert (Hsame : ∀ c, values c st2 = values c st).
    { intros c. unfold values. by rewrite Heq. }
    split.
    + by rewrite values_inserted, decide_True, Hsame.
    + intros c Hc. rewrite values_inserted, decide_False by done.
      by rewrite app_nil_r.
  - rewrite values_inserted, decide_True by done.
    apply sublist_app; [apply Hvals|done].
Qed.

Lemma set_is_scoped_witness :
  ∃ stmt st',
    set (Some 1) (PyObject 2) held_elsewhere = (Ok stmt, st') ∧
    has_value (Some 1) st' = true ∧
    last (values (Some 1) st') = Some (object stmt) ∧
    (∀ c, c ≠ Some 1 → values c st' `sublist_of` values c held_elsewhere) ∧
    values (Some 1) st' `sublist_of` values (Some 1) held_elsewhere ++ [object stmt].
Proof.
  eexists _, _. split; [reflexivity|].
  apply (set_is_scoped (Some 1) (PyObject 2) held_elsewhere _ _ eq_refl).
Defined.

(** X6. [unset] undoes [_insert_value]: inserting a value and removing it
    again always returns; the Statements held and the [owner_properties] of
    the value are those before up to their order, no other object is
    touched, nor are the Statement sets of the contexts. *)
Theorem insert_then_unset ctx v st :
  ∃ st', (_insert_value ctx v ;;> _remove_value ctx v) st = (Ok tt, st') ∧
         _v (prop st') ≡ₚ _v (prop st) ∧
         owner_properties_of (heap st') v ≡ₚ owner_properties_of (heap st) v ∧
         (∀ o, o ≠ v → owner_properties_of (heap st') o = owner_properties_of (heap st) o) ∧
         next_id st' = next_id st ∧
         statements st' = statements st.
Proof.
  unfold bind. rewrite _insert_value_eq.
  set (stmt := mkStatement (owner (prop st)) (self (prop st)) v ctx).
  set (ops := owner_properties_of (heap st) v).
  destruct (list_remove_elem (self (prop st)) (ops ++ [self (prop st)])) as [ops' Hops].
  { apply elem_of_app. right. constructor. }
  destruct (list_remove_elem stmt (_v (prop st) ++ [stmt])) as [l' Hl].
  { apply elem_of_app. right. constructor. }
  erewrite _remove_value_eq; simpl.
  2:{ rewrite owner_properties_of_set. exact Hops. }
  2:{ exact Hl. }
  eexists. split; [reflexivity|]. simpl.
  split.
  { apply list_remove_Permutation in Hl.
    apply (Permutation.Permutation_cons_inv (a := stmt)). rewrite <- Hl.
    by rewrite Permutation_app_comm. }
  split.
  { rewrite owner_properties_of_set.
    apply list_remove_Permutation in Hops.
    apply (Permutation.Permutation_cons_inv (a := self (prop st))).
    rewrite <- Hops. by rewrite Permutation_app_comm. }
  split; [|done].
  intros o Ho. by rewrite !owner_properties_of_set_ne.
Qed.

(** X7. A failed [unset] is not atomic. When the value lists the Property
    but is not held under the bound context (it is held under another
    one), [unset] raises the [ValueError] of [list.remove] after it has
    dropped a back-reference: the Statements held are those before, the
    value has lost one back-reference, and the back-references are no
    longer counted. *)
Theorem failed_unset_drops_backref ctx v st :
  self (prop st) ∈ owner_properties_of (heap st) v →
  mkStatement (owner (prop st)) (self (prop st)) v ctx ∉ _v (prop st) →
  backrefs_counted st →
  ∃ st', _remove_value ctx v st = (Raise (ValueError remove_msg), st') ∧
         _v (prop st') = _v (prop st) ∧
         length (owner_properties_of (heap st) v)
           = S (length (owner_properties_of (heap st') v)) ∧
         ¬ backrefs_counted st'.
Proof.
  intros Hin Hnin Hcount.
  destruct (list_remove_elem _ _ Hin) as [ops Hops].
  assert (Hl : list_remove (mkStatement (owner (prop st)) (self (prop st)) v ctx)
                 (_v (prop st)) = None).
  { destruct (list_remove _ (_v (prop st))) eqn:E; [|done].
    destruct Hnin. apply list_remove_is_Some. by eexists. }
  destruct st as [[sf ow mu l hdf] hp nx sts]; simpl in *.
  unfold _remove_value, bind, gets, assert_; simpl.
  rewrite bool_decide_eq_true_2 by done.
  unfold ret, modify, owner_properties_remove; simpl. rewrite Hops.
  unfold _v_remove; simpl. rewrite Hl.
  eexists. split; [reflexivity|]. simpl.
  split; [done|]. rewrite owner_properties_of_set.
  split; [exact (list_remove_length _ _ _ Hops)|].
  intros Hcount'. specialize (Hcount v). specialize (Hcount' v).
  simpl in *. rewrite owner_properties_of_set in Hcount'.
  pose proof (list_remove_filter_length (λ p, p = sf) _ _ _ Hops) as Hf.
  rewrite decide_True in Hf by done. lia.
Qed.

Lemma failed_unset_drops_backref_witness :
  ∃ st', _remove_value (Some 1) 1 held_elsewhere = (Raise (ValueError remove_msg), st') ∧
         _v (prop st') = _v (prop held_elsewhere) ∧
         length (owner_properties_of (heap held_elsewhere) 1)
           = S (length (owner_properties_of (heap st') 1)) ∧
         ¬ backrefs_counted st'.
Proof.
  assert (Hv : _v (prop held_elsewhere) = [mkStatement 0 7 1 (Some 2)])
    by (vm_compute; reflexivity).
  apply (failed_unset_drops_backref (Some 1) 1 held_elsewhere).
  - vm_compute. constructor.
  - rewrite Hv. intros Hin. apply list_elem_of_singleton in Hin. discriminate.
  - apply held_elsewhere_counted.
Defined.

End BackReferences.

(** * More on the Property value store: the cache of has_defined_value *)

Section DefinedValueCache.

Import PropertyStore.

Lemma existsb_defined_head h ctx (l : list Statement) :
  existsb (λ x, bool_decide (context x = ctx) && defined_of h (object x)) l
  = bool_decide (is_Some (head (object <$>
      filter (λ x, defined_of h (object x) = true ∧ context x = ctx) l))).
Proof.
  induction l as [|x l IH]; [done|]. cbn [existsb].
  rewrite filter_cons.
  destruct (decide (defined_of h (object x) = true ∧ context x = ctx)) as [[Hd Hc]|Hn].
  - rewrite (bool_decide_eq_true_2 (context x = ctx)) by done. rewrite Hd.
    symmetry. apply bool_decide_eq_true_2. by eexists.
  - rewrite IH.
    destruct (bool_decide (context x = ctx)) eqn:Hc; [|done].
    apply bool_decide_eq_true_1 in Hc.
    destruct (defined_of h (object x)) eqn:Hd; [|done].
    destruct Hn. by split.
Qed.

Lemma onedef_elem ctx st x :
  x ∈ _v (prop st) → context x = ctx → defined_of (heap st) (object x) = true →
  is_Some (onedef ctx st).
Proof.
  intros Hx Hc Hd. unfold onedef, defined_values.
  assert (Hin : x ∈ filter (λ x, defined_of (heap st) (object x) = true ∧ context x = ctx)
                    (_v (prop st))) by (by apply list_elem_of_filter).
  destruct (filter _ (_v (prop st))); [by apply elem_of_nil in Hin|by eexists].
Qed.

(** X8. When the cache is coherent, [has_defined_value()] answers whether
    [onedef()] returns an object, that is, whether a Statement of the bound
    context points to a defined object; it changes nothing but the cache,
    which stays coherent. *)
Theorem has_defined_value_is_onedef ctx st :
  hdf_coherent st →
  ∃ st', has_defined_value ctx st = (Ok (bool_decide (is_Some (onedef ctx st))), st') ∧
         hdf_coherent st' ∧
         _v (prop st') = _v (prop st) ∧ heap st' = heap st ∧
         statements st' = statements st.
Proof.
  intros Hcoh. unfold has_defined_value, bind, gets.
  destruct (_hdf (prop st) !! ctx) as [[b|]|] eqn:Hc; simpl.
  - destruct (Hcoh ctx b Hc) as (-> & x & Hx & Hctx & Hd).
    exists st. unfold ret.
    rewrite bool_decide_eq_true_2 by (by eapply onedef_elem). done.
  - rewrite existsb_defined_head. fold (defined_values ctx st). fold (onedef ctx st).
    destruct (bool_decide (is_Some (onedef ctx st))) eqn:Hone.
    + unfold modify, ret. eexists. split; [reflexivity|].
      split; [|by destruct st as [[] ? ? ?]].
      intros c b. destruct st as [[sf ow mu l hdf] hp nx sts]. simpl in *.
      destruct (decide (ctx = c)) as [<-|Hne].
      * rewrite lookup_insert_eq. intros [= <-]. split; [done|].
        apply bool_decide_eq_true_1 in Hone. destruct Hone as [o Ho].
        unfold onedef, defined_values in Ho. simpl in Ho.
        destruct (filter _ l) as [|x l'] eqn:Hf; [done|].
        assert (Hx : x ∈ filter (λ x, defined_of hp (object x) = true ∧ context x = ctx) l)
          by (rewrite Hf; left).
        apply list_elem_of_filter in Hx as [[Hd Hcx] Hx]. by exists x.
      * rewrite lookup_insert_ne by done. apply Hcoh.
    + by exists st.
  - rewrite existsb_defined_head. fold (defined_values ctx st). fold (onedef ctx st).
    destruct (bool_decide (is_Some (onedef ctx st))) eqn:Hone.
    + unfold modify, ret. eexists. split; [reflexivity|].
      split; [|by destruct st as [[] ? ? ?]].
      intros c b. destruct st as [[sf ow mu l hdf] hp nx sts]. simpl in *.
      destruct (decide (ctx = c)) as [<-|Hne].
      * rewrite lookup_insert_eq. intros [= <-]. split; [done|].
        apply bool_decide_eq_true_1 in Hone. destruct Hone as [o Ho].
        unfold onedef, defined_values in Ho. simpl in Ho.
        destruct (filter _ l) as [|x l'] eqn:Hf; [done|].
        assert (Hx : x ∈ filter (λ x, defined_of hp (object x) = true ∧ context x = ctx) l)
          by (rewrite Hf; left).
        apply list_elem_of_filter in Hx as [[Hd Hcx] Hx]. by exists x.
      * rewrite lookup_insert_ne by done. apply Hcoh.
    + by exists st.
Qed.

(** A cache without a positive entry is coherent. *)
Lemma hdf_coherent_no_entry st :
  (∀ c b, _hdf (prop st) !! c ≠ Some (Some b)) → hdf_coherent st.
Proof. intros Hno c b Hc. by destruct (Hno c b). Qed.

Lemma hdf_coherent_inserted ctx o st :
  hdf_coherent st → hdf_coherent (inserted ctx o st).
Proof.
  intros Hcoh c b. unfold inserted. simpl.
  destruct (decide (ctx = c)) as [<-|Hne].
  - by rewrite lookup_insert_eq.
  - rewrite lookup_insert_ne by done. intros Hc.
    destruct (Hcoh c b Hc) as (-> & x & Hx & Hctx & Hd).
    split; [done|]. exists x. split; [apply elem_of_app; by left|].
    split; [done|]. by rewrite defined_of_set_owner_properties.
Qed.

Lemma hdf_coherent_set_value ctx o st :
  hdf_coherent st → hdf_coherent (exec (set_value ctx o) st).
Proof.
  intros Hcoh. unfold exec. rewrite set_value_eq.
  destruct (multiple (prop st)); simpl.
  - by apply hdf_coherent_inserted.
  - rewrite clear_eq.
    pose proof (clear_loop_keeps (S (length (_v (prop st)))) 0
                  (with_hdf (λ _, ∅) st)) as Hk.
    destruct (clear_loop _ 0 _) as [[[]|e|] st2]; simpl in *;
      destruct Hk as (_ & _ & _ & Hh & _).
    + apply hdf_coherent_inserted. apply hdf_coherent_no_entry.
      intros c b. by rewrite Hh, lookup_empty.
    + apply hdf_coherent_no_entry. intros c b. by rewrite Hh, lookup_empty.
    + apply hdf_coherent_no_entry. intros c b. by rewrite Hh, lookup_empty.
Qed.

Lemma hdf_coherent_set ctx v st :
  hdf_coherent st →
  (∀ x, x ∈ _v (prop st) → object x < next_id st) →
  hdf_coherent (exec (set ctx v) st).
Proof.
  intros Hcoh Hobj. destruct v as [|z|o]; [done| |].
  - unfold exec, set. unfold bind at 1, alloc at 1.
    apply hdf_coherent_set_value. intros c b Hc. simpl in *.
    destruct (Hcoh c b Hc) as (-> & x & Hx & Hctx & Hd).
    split; [done|]. exists x. split; [done|]. split; [done|].
    unfold defined_of in *. rewrite lookup_insert_ne; [done|].
    apply Hobj in Hx. lia.
  - by apply hdf_coherent_set_value.
Qed.

Lemma hdf_coherent_unset ctx o st :
  hdf_coherent st → hdf_coherent (exec (_remove_value ctx o) st).
Proof.
  intros Hcoh. destruct st as [[sf ow mu l hdf] hp nx sts].
  unfold exec, _remove_value, bind, gets, assert_; simpl.
  case_bool_decide; [|done].
  unfold ret, modify, owner_properties_remove; simpl.
  destruct (list_remove sf (owner_properties_of hp o)) as [ops|]; simpl.
  2:{ intros c b. simpl. destruct (decide (ctx = c)) as [<-|Hne].
      - by rewrite lookup_insert_eq.
      - rewrite lookup_insert_ne by done. apply Hcoh. }
  unfold _v_remove; simpl.
  destruct (list_remove (mkStatement ow sf o ctx) l) as [l'|] eqn:Hl; simpl;
    intros c b; simpl; (destruct (decide (ctx = c)) as [<-|Hne];
                        [by rewrite lookup_insert_eq|]);
    rewrite lookup_insert_ne by done; intros Hc;
    destruct (Hcoh c b Hc) as (-> & x & Hx & Hctx & Hd); simpl in *;
    (split; [done|]); exists x; rewrite defined_of_set_owner_properties.
  - split; [|done]. apply list_remove_Permutation in Hl.
    rewrite Hl in Hx. apply elem_of_cons in Hx as [->|Hx]; [|done].
    simpl in Hctx. congruence.
  - done.
Qed.

(** X9. [set], [clear] and [unset] keep the cache coherent, whatever their
    outcome: each resets the entries it may have made stale. *)
Theorem cache_stays_coherent ctx v o st :
  hdf_coherent st →
  (∀ x, x ∈ _v (prop st) → object x < next_id st) →
  hdf_coherent (exec (set ctx v) st) ∧
  hdf_coherent (exec clear st) ∧
  hdf_coherent (exec (_remove_value ctx o) st).
Proof.
  intros Hcoh Hobj. split; [by apply hdf_coherent_set|].
  split; [|by apply hdf_coherent_unset].
  apply hdf_coherent_no_entry. intros c b.
  unfold exec. rewrite clear_eq.
  destruct (clear_loop_keeps (S (length (_v (prop st)))) 0 (with_hdf (λ _, ∅) st))
    as (_ & _ & _ & Hh & _).
  rewrite Hh. simpl. by rewrite lookup_empty.
Qed.

Lemma cached_store_coherent : hdf_coherent cached_store.
Proof.
  assert (Hh : _hdf (prop cached_store) = <[Some 2 := Some true]> (<[Some 2 := None]> ∅))
    by (vm_compute; reflexivity).
  intros c b Hc. rewrite Hh in Hc.
  destruct (decide (c = Some 2)) as [->|Hne].
  - rewrite lookup_insert_eq in Hc. injection Hc as <-. split; [done|].
    exists (mkStatement 0 7 1 (Some 2)). vm_compute. split; [constructor|done].
  - by rewrite !lookup_insert_ne, lookup_empty in Hc.
Qed.

Lemma has_defined_value_is_onedef_witness :
  ∃ st', has_defined_value (Some 2) cached_store
           = (Ok (bool_decide (is_Some (onedef (Some 2) cached_store))), st') ∧
         hdf_coherent st' ∧
         _v (prop st') = _v (prop cached_store) ∧ heap st' = heap cached_store ∧
         statements st' = statements cached_store.
Proof.
  apply (has_defined_value_is_onedef (Some 2) cached_store).
  apply cached_store_coherent.
Defined.

Lemma cache_stays_coherent_witness :
  hdf_coherent (exec (set (Some 1) (PyScalar 5)) cached_store) ∧
  hdf_coherent (exec clear cached_store) ∧
  hdf_coherent (exec (_remove_value (Some 1) 1) cached_store).
Proof.
  apply (cache_stays_coherent (Some 1) (PyScalar 5) 1 cached_store).
  - apply cached_store_coherent.
  - assert (Hv : _v (prop cached_store) = [mkStatement 0 7 1 (Some 2)])
      by (vm_compute; reflexivity).
    intros x Hx. rewrite Hv in Hx. apply list_elem_of_singleton in Hx as ->.
    vm_compute. lia.
Defined.

End DefinedValueCache.

(** * More on the class ordering *)

Section ClassOrderMore.

Import ClassOrder.

Lemma string_ltb_asym s t : String.ltb s t = true → String.ltb t s = false.
Proof.
  unfold String.ltb. rewrite (String.compare_antisym t s).
  by destruct (String.compare s t).
Qed.

Lemma string_ltb_total s t : s ≠ t → String.ltb s t = true ∨ String.ltb t s = true.
Proof.
  intros Hne. unfold String.ltb. rewrite (String.compare_antisym t s).
  destruct (String.compare s t) eqn:E; simpl; auto.
  by apply String.compare_eq_iff in E.
Qed.

(** X10. [__lt__] is asymmetric, hence irreflexive: no two classes are each
    smaller than the other, and no class is smaller than itself. *)
Theorem lt_asymmetric (A B : pyclass) :
  __lt__ A B = true → __lt__ B A = false ∧ __lt__ A A = false.
Proof.
  unfold __lt__. intros Hlt. split.
  - destruct (issubclass A B), (issubclass B A); simpl in *; try done.
    + by apply string_ltb_asym.
    + by apply string_ltb_asym.
  - destruct (issubclass A A); simpl.
    + destruct (String.ltb (__name__ A) (__name__ A)) eqn:E; [|done].
      by rewrite (string_ltb_asym _ _ E) in E.
    + destruct (String.ltb (__name__ A) (__name__ A)) eqn:E; [|done].
      by rewrite (string_ltb_asym _ _ E) in E.
Qed.

Lemma lt_asymmetric_witness :
  __lt__ ObjectProperty Property = false ∧ __lt__ Property Property = false.
Proof. apply (lt_asymmetric Property ObjectProperty). reflexivity. Defined.

(** X11. Two classes with different names are always comparable: one of
    them is smaller than the other, whether or not they are related by
    inheritance. *)
Theorem lt_total_on_names (A B : pyclass) :
  __name__ A ≠ __name__ B → __lt__ A B = true ∨ __lt__ B A = true.
Proof.
  intros Hne. unfold __lt__.
  destruct (issubclass A B), (issubclass B A); simpl; auto using string_ltb_total.
Qed.

Lemma lt_total_on_names_witness :
  __lt__ DatatypeProperty ObjectProperty = true ∨
  __lt__ ObjectProperty DatatypeProperty = true.
Proof. apply (lt_total_on_names DatatypeProperty ObjectProperty). discriminate. Defined.

(** X12. [__lt__] is not transitive. When [B] is an ancestor of [C], [A] is
    related to neither, and the name of [A] lies between those of [C] and
    [B], then [A < B], [B < C] and [C < A]: sorting such classes with this
    ordering has no consistent answer. *)
Theorem lt_cycle (A B C : pyclass) :
  strict_ancestor B C → unrelated A B → unrelated A C →
  lex_lt (__name__ A) (__name__ B) → lex_lt (__name__ C) (__name__ A) →
  __lt__ A B = true ∧ __lt__ B C = true ∧ __lt__ C A = true ∧ __lt__ A C = false.
Proof.
  intros [Hcb Hbc] [Hab Hba] [Hac Hca] Hn1 Hn2.
  apply ltb_lex_lt in Hn1, Hn2. unfold __lt__.
  rewrite Hcb, Hbc, Hab, Hba, Hac, Hca. simpl.
  rewrite Hn1, Hn2. repeat split. by apply string_ltb_asym.
Qed.

Lemma lt_cycle_witness :
  __lt__ DatatypeProperty ObjectProperty = true ∧
  __lt__ ObjectProperty Alpha = true ∧
  __lt__ Alpha DatatypeProperty = true ∧
  __lt__ DatatypeProperty Alpha = false.
Proof.
  apply (lt_cycle DatatypeProperty ObjectProperty Alpha).
  - vm_compute. done.
  - vm_compute. done.
  - vm_compute. done.
  - apply ltb_lex_lt. reflexivity.
  - apply ltb_lex_lt. reflexivity.
Defined.

End ClassOrderMore.

(** * More on property expressions *)

Section PropertyExprMore.

Import PropertyExpr.

Context {Term : Type} `{Countable Term}.

Implicit Types (w : World (Term := Term)) (e : PropertyExpr (Term := Term))
               (σ : ExprStore (Term := Term)).

(** X13. For every expression, the objects of its triples, in order, are
    its terms: the two providers of an expression never disagree. *)
Theorem triples_objects_are_terms w (pr : provider (Term := Term)) :
  (λ c : Triple, c.2) <$> triples_provider w pr = terms_provider w pr.
Proof.
  induction pr as [props|a IHa b IHb|parent IH lnk]; simpl.
  - induction props as [|p props IHp]; csimpl; [done|].
    rewrite fmap_app, IHp. f_equal.
    rewrite <- list_fmap_compose. simpl. apply list_fmap_id.
  - by rewrite fmap_app, IHa, IHb.
  - done.
Qed.

(** The objects that the triples hold for the subject [s]. *)
Lemma elem_of_objects (triples : list (Triple (Term := Term))) s o :
  o ∈ (list_to_set ((λ c : Triple, c.2) <$> filter (λ c : Triple, c.1.1 = s) triples)
        : gset Term)
  ↔ ∃ p, (s, p, o) ∈ triples.
Proof.
  rewrite elem_of_list_to_set, list_elem_of_fmap. split.
  - intros ([[s' p] o'] & -> & Hin). apply list_elem_of_filter in Hin as [Hs Hin].
    simpl in *. subst s'. by exists p.
  - intros [p Hin]. exists (s, p, o). split; [done|].
    by apply list_elem_of_filter.
Qed.

(** The invariant of the [multiple=True] loop, started from any [res]. *)
Lemma to_dict_multiple_spec (triples : list (Triple (Term := Term))) :
  ∀ (res : gmap Term (gset Term)) s,
    objects_at (to_dict_multiple triples res) s
      = objects_at res s ∪ list_to_set ((λ c : Triple, c.2) <$>
                             filter (λ c : Triple, c.1.1 = s) triples) ∧
    (is_Some (to_dict_multiple triples res !! s) ↔
     is_Some (res !! s) ∨ ∃ p o, (s, p, o) ∈ triples).
Proof.
  induction triples as [|[[s0 p0] o0] ts IH]; intros res s; cbn [to_dict_multiple].
  - split; [by rewrite filter_nil, fmap_nil, list_to_set_nil, union_empty_r_L|].
    split; [by left|]. intros [?|(? & ? & Hin)]; [done|by apply elem_of_nil in Hin].
  - assert (Hstep : ∀ os,
        objects_at res s0 ∪ {[o0]} = os →
        objects_at (to_dict_multiple ts (<[s0 := os]> res)) s
          = objects_at res s ∪ list_to_set ((λ c : Triple, c.2) <$>
              filter (λ c : Triple, c.1.1 = s) ((s0, p0, o0) :: ts)) ∧
        (is_Some (to_dict_multiple ts (<[s0 := os]> res) !! s) ↔
         is_Some (res !! s) ∨ ∃ p o, (s, p, o) ∈ (s0, p0, o0) :: ts)).
    { intros os Hos. destruct (IH (<[s0 := os]> res) s) as [Hobj Hkey].
      rewrite Hobj, Hkey. rewrite filter_cons. unfold objects_at. simpl.
      destruct (decide (s0 = s)) as [->|Hne].
      - rewrite lookup_insert_eq. simpl. split.
        + rewrite <- Hos. unfold objects_at.
          rewrite <- (assoc_L (∪)). f_equal.
        + split.
          * intros [_|(p & o & Hin)]; right; [by exists p0, o0; left|].
            exists p, o. by right.
          * intros _. left. by eexists.
      - rewrite lookup_insert_ne by done. split; [done|]. split.
        + intros [?|(p & o & Hin)]; [by left|]. right. exists p, o. by right.
        + intros [?|(p & o & Hin)]; [by left|].
          apply elem_of_cons in Hin as [Heq|Hin]; [by simplify_eq|].
          right. by exists p, o. }
    destruct (res !! s0) as [values|] eqn:Hs0.
    + apply Hstep. unfold objects_at. by rewrite Hs0.
    + apply Hstep. unfold objects_at. rewrite Hs0. simpl.
      by rewrite union_empty_l_L.
Qed.

(** X14. On an expression whose [to_dict] was not called yet,
    [to_dict(multiple=True)] returns, and caches, a dict whose keys are the
    subjects of the triples and that maps each of them to the set of all
    its objects. *)
Theorem to_dict_multiple_valued w e :
  dict e = None →
  let triples := triples_provider w (providers e) in
  ∃ d, to_dict w true e =
         (Ok (MultiDict d),
          mkExpr (props e) (providers e) (terms e) (Some (MultiDict d)) (combos e)) ∧
       (∀ s, is_Some (d !! s) ↔ ∃ p o, (s, p, o) ∈ triples) ∧
       (∀ s o, o ∈ objects_at d s ↔ ∃ p, (s, p, o) ∈ triples).
Proof.
  intros Hfresh triples. unfold to_dict. rewrite Hfresh. simpl. fold triples.
  eexists. split; [reflexivity|]. split.
  - intros s. destruct (to_dict_multiple_spec triples ∅ s) as [_ Hkey].
    rewrite Hkey. rewrite lookup_empty. split; [|by right].
    intros [[? ?]|?]; done.
  - intros s o. destruct (to_dict_multiple_spec triples ∅ s) as [Hobj _].
    rewrite Hobj. unfold objects_at at 1. rewrite lookup_empty. simpl.
    rewrite union_empty_l_L. apply elem_of_objects.
Qed.

(** X15. The dict of a union is the union of the dicts: for every subject,
    [(a | b).to_dict(multiple=True)] holds the objects that the dict of [a]
    holds together with those that the dict of [b] holds. *)
Theorem union_dict_law w σ i1 i2 e1 e2 :
  i1 ≠ i2 → i1 < next_expr σ → i2 < next_expr σ →
  exprs σ !! i1 = Some e1 → exprs σ !! i2 = Some e2 →
  ∃ d σ', union_dict w i1 i2 σ = (Ok (MultiDict d), σ') ∧
          ∀ s, objects_at d s = objects_at (multi_dict w (providers e1)) s
                                ∪ objects_at (multi_dict w (providers e2)) s.
Proof.
  intros Hne Hlt1 Hlt2 H1 H2. unfold union_dict.
  destruct (or_spec σ i1 i2 e1 e2 Hne Hlt1 Hlt2 H1 H2) as (σ1 & Hor & Hnew).
  unfold bind at 1. rewrite Hor.
  unfold to_dict_of, bind, read_expr. rewrite Hnew.
  unfold to_dict, new_PropertyExpr. simpl.
  eexists _, _. split; [reflexivity|].
  intros s. unfold multi_dict.
  destruct (to_dict_multiple_spec
              (triples_provider w (providers e1) ++ triples_provider w (providers e2))
              ∅ s) as [-> _].
  destruct (to_dict_multiple_spec (triples_provider w (providers e1)) ∅ s) as [-> _].
  destruct (to_dict_multiple_spec (triples_provider w (providers e2)) ∅ s) as [-> _].
  unfold objects_at. rewrite lookup_empty. simpl.
  rewrite !union_empty_l_L. by rewrite filter_app, fmap_app, list_to_set_app_L.
Qed.

(** X16. When no subject has two distinct objects, both modes of [to_dict]
    return on a fresh expression and agree: the dict of [multiple=False]
    maps a subject to [o] exactly when the dict of [multiple=True] maps it
    to the set that holds [o] alone. *)
Theorem to_dict_modes_agree w e :
  dict e = None →
  ¬ two_objects (triples_provider w (providers e)) →
  ∃ res d,
    (to_dict w false e).1 = Ok (SingleDict res) ∧
    (to_dict w true e).1 = Ok (MultiDict d) ∧
    ∀ s o, res !! s = Some o ↔ d !! s = Some {[o]}.
Proof.
  intros Hfresh Hno. unfold to_dict. rewrite Hfresh. simpl.
  set (triples := triples_provider w (providers e)) in *.
  pose proof (to_dict_single_spec triples ∅) as Hloop. simpl in Hloop.
  destruct (to_dict_single triples ∅) as [res|ex|]; simpl; [| |done].
  2:{ destruct Hloop as [_ [(? & ? & ? & ? & Hemp & _)|Htwo]]; [|done].
      by rewrite lookup_empty in Hemp. }
  destruct Hloop as [_ Hchar].
  eexists _, _. split; [reflexivity|]. split; [reflexivity|].
  intros s o. rewrite Hchar, lookup_empty.
  destruct (to_dict_multiple_spec triples ∅ s) as [Hobj Hkey].
  unfold objects_at in Hobj. rewrite lookup_empty in Hobj, Hkey. simpl in Hobj.
  rewrite union_empty_l_L in Hobj.
  split.
  - intros [[p Hin]|?]; [|done].
    destruct (to_dict_multiple triples ∅ !! s) as [os|] eqn:Hd.
    + simpl in Hobj. f_equal. rewrite Hobj. apply set_eq. intros o'.
      rewrite elem_of_objects, elem_of_singleton. split.
      * intros [p' Hin']. destruct (decide (o' = o)) as [|Hne]; [done|].
        destruct Hno. by exists s, p', o', p, o.
      * intros ->. by exists p.
    + assert (Hs : is_Some (None : option (gset Term))).
      { apply Hkey. right. by exists p, o. }
      by destruct Hs.
  - intros Hd. left. rewrite Hd in Hobj. simpl in Hobj.
    apply (elem_of_objects triples s o). rewrite <- Hobj. by apply elem_of_singleton.
Qed.

(** The run of [a | b] on two distinct stored expressions. *)
Lemma or_run σ i1 i2 e1 e2 :
  wf_store σ → i1 ≠ i2 →
  exprs σ !! i1 = Some e1 → exprs σ !! i2 = Some e2 →
  let u := next_expr σ in
  ∃ σ', __or__ i1 i2 σ = (Ok u, σ') ∧
        exprs σ' !! u = Some (new_PropertyExpr (props e1 ++ props e2)
                                (chain (providers e1) (providers e2))) ∧
        exprs σ' !! i1 = Some (mkExpr (props e1) (providers e1) (terms e1) (dict e1)
                                      (combos e1 ++ [u])) ∧
        exprs σ' !! i2 = Some (mkExpr (props e2) (providers e2) (terms e2) (dict e2)
                                      (combos e2 ++ [u])) ∧
        (∀ j, j ≠ i1 → j ≠ i2 → j ≠ u → exprs σ' !! j = exprs σ !! j) ∧
        _expr σ' = _expr σ ∧
        next_expr σ' = S u ∧
        wf_store σ'.
Proof.
  intros [Hdom Hroot] Hne H1 H2 u.
  assert (Hlt1 : i1 < next_expr σ) by (apply Hdom; by eexists).
  assert (Hlt2 : i2 < next_expr σ) by (apply Hdom; by eexists).
  unfold __or__. rewrite decide_False by done.
  unfold bind at 1. unfold read_expr at 1. rewrite H1.
  unfold bind at 1. unfold read_expr at 1. rewrite H2.
  unfold bind at 1. unfold new_expr at 1.
  unfold bind at 1. unfold combos_append at 1.
  unfold bind at 1. unfold read_expr at 1. simpl.
  rewrite lookup_insert_ne by lia. rewrite H1.
  unfold write_expr at 1. unfold modify at 1. simpl.
  unfold bind at 1. unfold combos_append at 1.
  unfold bind at 1. unfold read_expr at 1. simpl.
  rewrite lookup_insert_ne by done. rewrite lookup_insert_ne by lia. rewrite H2.
  unfold write_expr, modify, ret. simpl.
  eexists. split; [reflexivity|]. simpl. fold u.
  assert (Hu1 : u ≠ i1) by (unfold u; lia).
  assert (Hu2 : u ≠ i2) by (unfold u; lia).
  split. { rewrite !lookup_insert_ne by done. by rewrite lookup_insert_eq. }
  split. { rewrite lookup_insert_ne by done. by rewrite lookup_insert_eq. }
  split. { by rewrite lookup_insert_eq. }
  split. { intros j Hj1 Hj2 Hju. by rewrite !lookup_insert_ne. }
  split; [done|]. split; [done|]. split; simpl.
  - intros j Hj. destruct (decide (j = u)) as [->|Hju]; [lia|].
    destruct (decide (j = i1)) as [->|Hj1]; [lia|].
    destruct (decide (j = i2)) as [->|Hj2]; [lia|].
    rewrite !lookup_insert_ne in Hj by done. apply Hdom in Hj. lia.
  - intros p j Hp. destruct (Hroot p j Hp) as (e & He & Hpr).
    assert (Hju : j ≠ u).
    { intros ->. assert (u < next_expr σ) by (apply Hdom; by eexists).
      unfold u in *. lia. }
    destruct (decide (j = i2)) as [->|Hj2].
    { rewrite lookup_insert_eq. eexists. split; [done|]. simpl. congruence. }
    rewrite lookup_insert_ne by done.
    destruct (decide (j = i1)) as [->|Hj1].
    { rewrite lookup_insert_eq. eexists. split; [done|]. simpl. congruence. }
    rewrite !lookup_insert_ne by done. by exists e.
Qed.

(** X17. [a | b] on two distinct stored expressions makes a new
    expression over the properties of both, without memoized results, and
    appends it to the [combos] of both; the operands keep their
    properties, providers and memoized results, no other expression
    changes, and the store stays well-formed. *)
Theorem or_registers_with_both σ i1 i2 e1 e2 :
  wf_store σ → i1 ≠ i2 →
  exprs σ !! i1 = Some e1 → exprs σ !! i2 = Some e2 →
  let u := next_expr σ in
  ∃ σ', __or__ i1 i2 σ = (Ok u, σ') ∧
        exprs σ' !! u = Some (new_PropertyExpr (props e1 ++ props e2)
                                (chain (providers e1) (providers e2))) ∧
        exprs σ' !! i1 = Some (mkExpr (props e1) (providers e1) (terms e1) (dict e1)
                                      (combos e1 ++ [u])) ∧
        exprs σ' !! i2 = Some (mkExpr (props e2) (providers e2) (terms e2) (dict e2)
                                      (combos e2 ++ [u])) ∧
        (∀ j, j ≠ i1 → j ≠ i2 → j ≠ u → exprs σ' !! j = exprs σ !! j) ∧
        _expr σ' = _expr σ ∧
        wf_store σ'.
Proof.
  intros Hwf Hne H1 H2 u.
  destruct (or_run σ i1 i2 e1 e2 Hwf Hne H1 H2)
    as (σ' & Hrun & Hu & Hi1 & Hi2 & Hother & Hp & _ & Hwf').
  by exists σ'.
Qed.

Implicit Types (s : SubStore (Term := Term)).





End PropertyExprMore.

Section PropertyExprMoreExamples.

Import PropertyExpr.

Lemma two_roots_wf : wf_store two_roots.
Proof.
  assert (He : exprs two_roots
               = <[1 := new_PropertyExpr [3] (root [3])]>
                   (<[0 := new_PropertyExpr [1] (root [1])]> ∅))
    by (vm_compute; reflexivity).
  assert (Hp : _expr two_roots = <[3 := 1]> (<[1 := 0]> ∅))
    by (vm_compute; reflexivity).
  split.
  - intros i. rewrite He. intros Hi.
    destruct (decide (i = 1)) as [->|H1]; [vm_compute; lia|].
    destruct (decide (i = 0)) as [->|H0]; [vm_compute; lia|].
    rewrite !lookup_insert_ne, lookup_empty in Hi by done. by destruct Hi.
  - intros p i. rewrite Hp, He. intros Hi.
    destruct (decide (p = 3)) as [->|H3].
    { rewrite lookup_insert_eq in Hi. injection Hi as <-.
      rewrite lookup_insert_eq. by eexists. }
    destruct (decide (p = 1)) as [->|H1].
    { rewrite lookup_insert_ne, lookup_insert_eq in Hi by done. injection Hi as <-.
      rewrite lookup_insert_ne, lookup_insert_eq by done. by eexists. }
    by rewrite !lookup_insert_ne, lookup_empty in Hi.
Qed.

Lemma to_dict_multiple_valued_witness :
  ∃ d, to_dict example_world true example_union =
         (Ok (MultiDict d),
          mkExpr (props example_union) (providers example_union) (terms example_union)
                 (Some (MultiDict d)) (combos example_union)) ∧
       (∀ s, is_Some (d !! s) ↔
             ∃ p o, (s, p, o) ∈ triples_provider example_world (providers example_union)) ∧
       (∀ s o, o ∈ objects_at d s ↔
               ∃ p, (s, p, o) ∈ triples_provider example_world (providers example_union)).
Proof. apply (to_dict_multiple_valued example_world example_union). reflexivity. Defined.

Lemma union_dict_law_witness :
  ∃ d σ', union_dict example_world 0 1 two_roots = (Ok (MultiDict d), σ') ∧
          ∀ s, objects_at d s = objects_at (multi_dict example_world (root [1])) s
                                ∪ objects_at (multi_dict example_world (root [3])) s.
Proof.
  apply (union_dict_law example_world two_roots 0 1
           (new_PropertyExpr [1] (root [1])) (new_PropertyExpr [3] (root [3]))).
  - discriminate.
  - vm_compute. lia.
  - vm_compute. lia.
  - vm_compute. reflexivity.
  - vm_compute. reflexivity.
Defined.

Lemma to_dict_modes_agree_witness :
  ∃ res d,
    (to_dict example_world false example_root).1 = Ok (SingleDict res) ∧
    (to_dict example_world true example_root).1 = Ok (MultiDict d) ∧
    ∀ s o, res !! s = Some o ↔ d !! s = Some {[o]}.
Proof.
  apply (to_dict_modes_agree example_world example_root).
  - reflexivity.
  - intros (s & p1 & o1 & p2 & o2 & H1 & H2 & Hne).
    assert (Ht : triples_provider example_world (providers example_root) = [(10, 20, 5)])
      by reflexivity.
    rewrite Ht in H1, H2.
    apply list_elem_of_singleton in H1, H2. congruence.
Defined.

Lemma or_registers_with_both_witness :
  ∃ σ', __or__ 0 1 two_roots = (Ok 2, σ') ∧
        exprs σ' !! 2 = Some (new_PropertyExpr [1; 3] (chain (root [1]) (root [3]))) ∧
        exprs σ' !! 0 = Some (mkExpr [1] (root [1]) None None [2]) ∧
        exprs σ' !! 1 = Some (mkExpr [3] (root [3]) None None [2]) ∧
        (∀ j, j ≠ 0 → j ≠ 1 → j ≠ 2 → exprs σ' !! j = exprs two_roots !! j) ∧
        _expr σ' = _expr two_roots ∧
        wf_store σ'.
Proof.
  apply (or_registers_with_both two_roots 0 1
           (new_PropertyExpr [1] (root [1])) (new_PropertyExpr [3] (root [3]))).
  - apply two_roots_wf.
  - discriminate.
  - vm_compute. reflexivity.
  - vm_compute. reflexivity.
Defined.

End PropertyExprMoreExamples.

(** * More on property expressions: sub-expressions, on examples *)

Section SubExpressionExamples.

Import PropertyExpr.



End SubExpressionExamples.

(** * More on the construction of data sources *)

Section DataSourceMore.

Import DataSource.

Context {Value : Type}.

Variable py_ne : Value → Value → bool.
Variable DataObject___init__ : gmap string (option Value) → option exn.

Implicit Types (vals : gmap string (gmap string (option Value)))
               (fields : list (string * Informational (Value := Value))).

Lemma OrderedDict_set_keys {V} k (v : V) (d : list (string * V)) :
  (OrderedDict_set k v d).*1 = if decide (k ∈ d.*1) then d.*1 else d.*1 ++ [k].
Proof.
  induction d as [|[k' v'] d IH]; csimpl; [done|].
  destruct (decide (k = k')) as [->|Hne]; csimpl.
  - rewrite decide_True by left. done.
  - rewrite IH. destruct (decide (k ∈ d.*1)) as [Hin|Hnin].
    + rewrite decide_True by (by right). done.
    + rewrite decide_False; [done|].
      intros Hin. apply elem_of_cons in Hin as [?|?]; done.
Qed.

Lemma OrderedDict_set_elem {V} k (v : V) (d : list (string * V)) k' v' :
  NoDup d.*1 →
  (k', v') ∈ OrderedDict_set k v d ↔ (k' = k ∧ v' = v) ∨ (k' ≠ k ∧ (k', v') ∈ d).
Proof.
  induction d as [|[k0 v0] d IH]; simpl; intros Hnd.
  - rewrite list_elem_of_singleton. split.
    + intros [= -> ->]. by left.
    + intros [[-> ->]|[_ Hin]]; [done|by apply elem_of_nil in Hin].
  - apply NoDup_cons in Hnd as [Hk0 Hnd].
    destruct (decide (k = k0)) as [->|Hne].
    + rewrite !elem_of_cons. split.
      * intros [[= -> ->]|Hin]; [by left|]. right. split; [|by right].
        intros ->. apply Hk0. apply list_elem_of_fmap. by exists (k0, v').
      * intros [[-> ->]|[Hk [[= -> ->]|Hin]]]; [by left|done|by right].
    + rewrite !elem_of_cons, (IH Hnd). split.
      * intros [[= -> ->]|[[-> ->]|[Hk Hin]]].
        -- right. split; [done|by left].
        -- by left.
        -- right. split; [done|by right].
      * intros [[-> ->]|[Hk [[= -> ->]|Hin]]].
        -- right. by left.
        -- by left.
        -- right. right. by split.
Qed.

Lemma OrderedDict_snoc {V} (pairs : list (string * V)) kv :
  OrderedDict (pairs ++ [kv]) = OrderedDict_set kv.1 kv.2 (OrderedDict pairs).
Proof. unfold OrderedDict. by rewrite foldl_snoc. Qed.

Lemma OrderedDict_NoDup {V} (pairs : list (string * V)) : NoDup (OrderedDict pairs).*1.
Proof.
  induction pairs as [|kv pairs IH] using rev_ind; [constructor|].
  rewrite OrderedDict_snoc, OrderedDict_set_keys.
  destruct (decide (kv.1 ∈ (OrderedDict pairs).*1)); [done|].
  apply NoDup_app. split; [done|]. split; [|apply NoDup_singleton].
  intros k Hk Hk'. apply list_elem_of_singleton in Hk' as ->. done.
Qed.

(** An entry of an [OrderedDict] is the last pair of its key. *)
Lemma OrderedDict_elem {V} (pairs : list (string * V)) k v :
  (k, v) ∈ OrderedDict pairs ↔
  ∃ l1 l2, pairs = l1 ++ (k, v) :: l2 ∧ k ∉ l2.*1.
Proof.
  revert k v. induction pairs as [|[k0 v0] pairs IH] using rev_ind; intros k v.
  - split; [intros Hin; by apply elem_of_nil in Hin|].
    intros (l1 & l2 & Heq & _). by destruct l1.
  - rewrite OrderedDict_snoc, OrderedDict_set_elem by apply OrderedDict_NoDup.
    simpl. rewrite IH. split.
    + intros [[-> ->]|[Hk (l1 & l2 & -> & Hnin)]].
      * exists pairs, []. split; [done|]. apply not_elem_of_nil.
      * exists l1, (l2 ++ [(k0, v0)]). split; [by rewrite <- app_assoc|].
        rewrite fmap_app. intros Hin. apply elem_of_app in Hin as [?|Hin]; [done|].
        by apply list_elem_of_singleton in Hin.
    + intros (l1 & l2 & Heq & Hnin).
      destruct l2 as [|x l2 _] using rev_ind.
      * apply app_inj_tail in Heq as [_ Heq]. simplify_eq. by left.
      * rewrite app_comm_cons, app_assoc in Heq.
        apply app_inj_tail in Heq as [-> <-]. right.
        rewrite fmap_app in Hnin. split.
        -- intros ->. apply Hnin. apply elem_of_app. right. by left.
        -- exists l1, l2. split; [done|].
           intros Hin. apply Hnin. apply elem_of_app. by left.
Qed.

(** X20. [self.info_fields] has one entry per name, and for a name that
    several Informationals of the class carry it holds the last of them:
    an entry for [n] is an Informational named [n] that no Informational
    of this name follows in the list of the class. *)
Theorem info_fields_last_wins (class_info_fields : list (Informational (Value := Value))) :
  NoDup (info_fields class_info_fields).*1 ∧
  ∀ n inf, (n, inf) ∈ info_fields class_info_fields ↔
           name inf = n ∧
           ∃ l1 l2, class_info_fields = l1 ++ inf :: l2 ∧ n ∉ name <$> l2.
Proof.
  split; [apply OrderedDict_NoDup|].
  intros n inf. unfold info_fields. rewrite OrderedDict_elem. split.
  - intros (p1 & p2 & Heq & Hnin).
    apply fmap_app_inv in Heq as (l1 & l2' & -> & Heq & ->).
    symmetry in Heq. apply fmap_cons_inv in Heq as (i & l2 & [= -> ->] & -> & ->).
    split; [done|]. exists l1, l2. split; [done|].
    by rewrite <- list_fmap_compose in Hnin.
  - intros (<- & l1 & l2 & -> & Hnin).
    exists ((λ i, (name i, i)) <$> l1), ((λ i, (name i, i)) <$> l2).
    split; [by rewrite fmap_app, fmap_cons|].
    by rewrite <- list_fmap_compose.
Qed.

Lemma slot_vals_set n k (v : option Value) vals n' k' :
  slot (vals_set n k v vals) n' k' =
  if decide (n = n' ∧ k = k') then Some v else slot vals n' k'.
Proof.
  unfold slot, vals_set. destruct (decide (n = n')) as [->|Hn].
  - rewrite lookup_insert_eq. simpl. destruct (decide (k = k')) as [->|Hk].
    + rewrite lookup_insert_eq. by rewrite decide_True.
    + rewrite lookup_insert_ne by done. rewrite decide_False; [done|].
      by intros [_ ?].
  - rewrite lookup_insert_ne by done. rewrite decide_False; [done|].
    by intros [? _].
Qed.

(** Passing a value on writes ['a'] entries only. *)
Lemma slot_also_loop (v : option Value) alsos :
  ∀ vals vals', also_loop py_ne v alsos vals = Ok vals' →
    ∀ n k, k ≠ "a"%string → slot vals' n k = slot vals n k.
Proof.
  induction alsos as [|t alsos IH]; simpl; intros vals vals' Hrun n k Hk.
  - by simplify_eq.
  - destruct (also_step py_ne v vals t) as [vals1| |] eqn:Hstep; [|done|done].
    rewrite (IH _ _ Hrun) by done.
    unfold also_step in Hstep. destruct v as [v|]; [|by simplify_eq].
    destruct (pyval_ne _ _ _) in Hstep; [done|]. simplify_eq.
    unfold slot. destruct (decide (t = n)) as [->|Hne].
    + rewrite lookup_insert_eq. simpl. unfold setdefault.
      destruct (default ∅ (vals !! n) !! "a"%string); simpl; [done|].
      by rewrite lookup_insert_ne.
    + by rewrite lookup_insert_ne.
Qed.

(** One round of the outer loop writes the field's own ['i'], ['e'] and
    ['d'] entries and nobody else's. *)
Lemma field_step_slots new_kwargs vals n inf vals' :
  field_step py_ne new_kwargs vals n inf = Ok vals' →
  (∀ n' k, n' ≠ n → k ≠ "a"%string → slot vals' n' k = slot vals n' k) ∧
  slot vals' n "i" = match default None (new_kwargs !! n) with
                     | Some v => Some (Some v)
                     | None => slot vals n "i"
                     end ∧
  slot vals' n "e" = match default_override inf with
                     | Some v => Some (Some v)
                     | None => slot vals n "e"
                     end ∧
  slot vals' n "d" = Some (default_value inf).
Proof.
  unfold field_step. intros Hrun.
  pose proof (slot_also_loop _ _ _ _ Hrun) as Hsame.
  split; [|split; [|split]].
  - intros n' k Hn Hk. rewrite Hsame by done.
    rewrite slot_vals_set, decide_False by (intros [? _]; done).
    destruct (default_override inf);
      [rewrite slot_vals_set, decide_False by (intros [? _]; done)|];
      (destruct (default None (new_kwargs !! n));
       [by rewrite slot_vals_set, decide_False by (intros [? _]; done)|done]).
  - rewrite Hsame by done.
    rewrite slot_vals_set, decide_False by (intros [_ ?]; done).
    destruct (default_override inf);
      [rewrite slot_vals_set, decide_False by (intros [_ ?]; done)|];
      (destruct (default None (new_kwargs !! n));
       [by rewrite slot_vals_set, decide_True|done]).
  - rewrite Hsame by done.
    rewrite slot_vals_set, decide_False by (intros [_ ?]; done).
    destruct (default_override inf) as [e|]; [by rewrite slot_vals_set, decide_True|].
    destruct (default None (new_kwargs !! n));
      [by rewrite slot_vals_set, decide_False by (intros [_ ?]; done)|done].
  - rewrite Hsame by done. by rewrite slot_vals_set, decide_True.
Qed.

(** With one entry per name, the outer loop leaves in [vals[n]] what the
    round of the field [n] wrote. *)
Lemma fields_loop_slots new_kwargs fields :
  ∀ vals vals',
    NoDup fields.*1 →
    fields_loop py_ne new_kwargs fields vals = Ok vals' →
    (∀ n k, n ∉ fields.*1 → k ≠ "a"%string → slot vals' n k = slot vals n k) ∧
    (∀ n inf, (n, inf) ∈ fields →
              slot vals n "i" = None → slot vals n "e" = None →
              own_slots new_kwargs n inf vals').
Proof.
  induction fields as [|[n0 inf0] fields IH]; intros vals vals' Hnd Hrun.
  - simpl in Hrun. simplify_eq. split; [done|].
    intros n inf Hin. by apply elem_of_nil in Hin.
  - simpl in Hrun. rewrite fmap_cons in Hnd. simpl in Hnd.
    apply NoDup_cons in Hnd as [Hn0 Hnd].
    destruct (field_step py_ne new_kwargs vals n0 inf0) as [vals1| |] eqn:Hstep;
      [|done|done].
    apply field_step_slots in Hstep as (Hothers & Hi & He & Hd).
    destruct (IH _ _ Hnd Hrun) as [Hout Hin]. split.
    + intros n k Hn Hk. rewrite fmap_cons in Hn. simpl in Hn.
      apply not_elem_of_cons in Hn as [Hne Hn].
      rewrite Hout by done. by apply Hothers.
    + intros n inf Hf Hi0 He0. apply elem_of_cons in Hf as [Hf|Hf].
      * injection Hf as -> ->. unfold own_slots.
        rewrite !Hout by done. rewrite Hi, He, Hd, Hi0, He0.
        split; [by destruct (default None _)|].
        split; [by destruct (default_override _)|done].
      * assert (n ≠ n0) as Hne.
        { intros ->. apply Hn0. apply list_elem_of_fmap. by exists (n0, inf). }
        apply Hin; [done| |]; by rewrite Hothers.
Qed.

(** X21. For values whose [!=] is the negation of equality: when
    [__init__] gets through its first loop, the value that its second loop
    computes for a field [n] is the first of these that is not [None]: the
    keyword argument [n], the field's [default_override], the value [a]
    passed on to [n] by the fields that list [n] in their [also], and the
    field's [default_value]; [vl['d']] is there, so that no [KeyError] is
    raised. A value [v] is passed on to [n] iff a field with [n] in its
    [also] has the keyword argument [v], or no keyword argument other than
    [None] and the default value [v]. *)
Theorem init_value_precedence
    (class_info_fields : list (Informational (Value := Value)))
    (kwargs : gmap string (option Value)) vals n inf :
  (∀ x y, py_ne x y = false ↔ x = y) →
  __init___vals py_ne DataObject___init__ class_info_fields kwargs = Ok vals →
  (n, inf) ∈ info_fields class_info_fields →
  ∃ a,
    chosen_value (default ∅ (vals !! n)) =
      Some (first_given [default None (kwargs !! n); default_override inf;
                         a; default_value inf]) ∧
    ∀ v, a = Some v ↔
         ∃ n' inf', (n', inf') ∈ info_fields class_info_fields ∧
                    n ∈ also inf' ∧
                    (kwargs !! n' = Some (Some v) ∨
                     ((kwargs !! n' = None ∨ kwargs !! n' = Some None) ∧
                      default_value inf' = Some v)).
Proof.
  intros Hne. unfold __init___vals.
  set (fields := info_fields class_info_fields).
  set (new_kwargs := new_kwargs_of fields kwargs).
  destruct (DataObject___init__ _); [done|].
  intros Hrun Hin.
  pose proof (fields_loop_spec py_ne new_kwargs fields Hne ∅ [] records_empty)
    as Hrec.
  rewrite Hrun in Hrec. simpl in Hrec. destruct Hrec as [Hsound Hcompl].
  destruct (fields_loop_slots new_kwargs fields ∅ vals
              (OrderedDict_NoDup _) Hrun) as [_ Hown].
  destruct (Hown n inf Hin) as (Hi & He & Hd).
  { unfold slot. by rewrite !lookup_empty. }
  { unfold slot. by rewrite !lookup_empty. }
  unfold new_kwargs in Hi. rewrite (new_kwargs_of_lookup _ _ _ _ Hin) in Hi.
  assert (Hpassed : ∀ v, (n, v) ∈ passed_on new_kwargs fields ↔
            ∃ n' inf', (n', inf') ∈ fields ∧ n ∈ also inf' ∧
                       (kwargs !! n' = Some (Some v) ∨
                        ((kwargs !! n' = None ∨ kwargs !! n' = Some None) ∧
                         default_value inf' = Some v)))
    by (intros v; apply elem_of_passed_on_supplies).
  exists (default None (a_slot vals n)). split.
  - unfold chosen_value. unfold slot in Hi, He, Hd. unfold a_slot in *.
    rewrite Hd, Hi, He. simpl.
    destruct (default None (kwargs !! n)) as [vi|]; [done|].
    destruct (default_override inf) as [ve|]; [done|]. simpl.
    destruct (default ∅ (vals !! n) !! "a"%string) as [x|] eqn:Ha;
      [|by destruct (default_value inf)].
    destruct (Hsound n x Ha) as (va & -> & _). done.
  - intros v. rewrite <- Hpassed. split.
    + intros Ha. destruct (a_slot vals n) as [x|] eqn:Hx; [|done].
      simpl in Ha. subst x.
      destruct (Hsound n _ Hx) as (va & [= <-] & Hp). done.
    + intros Hp. by rewrite (Hcompl n v Hp).
Qed.

End DataSourceMore.

Section DataSourceMoreExamples.

Import DataSource.

Lemma init_value_precedence_witness :
  ∃ a,
    chosen_value (default ∅ (abc_vals !! "c"%string)) =
      Some (first_given [default None ((∅ : gmap string (option nat)) !! "c"%string);
                         None; a; None]) ∧
    ∀ v, a = Some v ↔
         ∃ n' inf', (n', inf') ∈ info_fields abc_fields ∧
                    "c"%string ∈ also inf' ∧
                    ((∅ : gmap string (option nat)) !! n' = Some (Some v) ∨
                     (((∅ : gmap string (option nat)) !! n' = None ∨
                       (∅ : gmap string (option nat)) !! n' = Some None) ∧
                      default_value inf' = Some v)).
Proof.
  apply (init_value_precedence nat_ne accepting abc_fields ∅ abc_vals "c"
           (mkInformational "c" None None [])).
  - intros x y. unfold nat_ne. rewrite negb_false_iff. apply Nat.eqb_eq.
  - vm_compute. reflexivity.
  - vm_compute. do 2 right. left.
Defined.

End DataSourceMoreExamples.

(** * Collecting the values of a property *)

Section CollectValues.

Import DataSource.

Context {A : Type} `{EqDecision A}.

Implicit Types (get defined_values attr_vals : list A).

(** The loop of [collect_values], started from any [attr_vals] without
    duplicates. *)
Lemma collect_loop_spec get :
  ∀ attr_vals,
    NoDup attr_vals →
    ∃ new,
      foldl (λ attr_vals x,
               if decide (x ∈ attr_vals) then attr_vals else attr_vals ++ [x])
            attr_vals get = attr_vals ++ new ∧
      NoDup (attr_vals ++ new) ∧
      sublist new get ∧
      ∀ x, x ∈ attr_vals ++ new ↔ x ∈ attr_vals ∨ x ∈ get.
Proof.
  induction get as [|y get IH]; intros attr_vals Hnd; simpl.
  - exists []. rewrite app_nil_r. split; [done|]. split; [done|].
    split; [done|]. intros x. rewrite elem_of_nil. tauto.
  - destruct (decide (y ∈ attr_vals)) as [Hy|Hy].
    + destruct (IH attr_vals Hnd) as (new & -> & Hnd' & Hsub & Hel).
      exists new. split; [done|]. split; [done|].
      split; [by apply sublist_cons|].
      intros x. rewrite Hel, elem_of_cons. split; [tauto|].
      intros [?|[->|?]]; tauto.
    + assert (Hnd1 : NoDup (attr_vals ++ [y])).
      { apply NoDup_app. split; [done|]. split; [|apply NoDup_singleton].
        intros x Hx Hx'. apply list_elem_of_singleton in Hx' as ->. done. }
      destruct (IH _ Hnd1) as (new & -> & Hnd' & Hsub & Hel).
      exists (y :: new). rewrite <- app_assoc in *. simpl in *.
      split; [done|]. split; [done|].
      split; [by apply sublist_skip|].
      intros x. rewrite Hel, elem_of_app, list_elem_of_singleton, elem_of_cons.
      tauto.
Qed.

(** The loop appends what is not yet there. *)
Lemma collect_loop_NoDup get :
  ∀ attr_vals,
    NoDup (attr_vals ++ get) →
    foldl (λ attr_vals x,
             if decide (x ∈ attr_vals) then attr_vals else attr_vals ++ [x])
          attr_vals get = attr_vals ++ get.
Proof.
  induction get as [|y get IH]; intros attr_vals Hnd; simpl.
  - by rewrite app_nil_r.
  - rewrite decide_False.
    + rewrite IH; rewrite <- app_assoc; done.
    + apply NoDup_app in Hnd as (_ & Hdisj & _). intros Hy.
      apply (Hdisj y Hy). by left.
Qed.

(** X22. With [stored] true, [collect_values] returns the values that
    [attr.get()] yields without duplicates and in the order of [get]: each
    value yielded is in the result once, the result is a subsequence of what
    was yielded, and collecting the result again changes nothing. *)
Theorem collect_values_stored get defined_values :
  NoDup (collect_values get defined_values true) ∧
  (∀ x, x ∈ collect_values get defined_values true ↔ x ∈ get) ∧
  sublist (collect_values get defined_values true) get ∧
  collect_values (collect_values get defined_values true) defined_values true
  = collect_values get defined_values true.
Proof.
  unfold collect_values.
  destruct (collect_loop_spec get [] (NoDup_nil_2)) as (new & Heq & Hnd & Hsub & Hel).
  simpl in *. rewrite Heq. split; [done|]. split.
  - intros x. rewrite Hel, elem_of_nil. tauto.
  - split; [done|]. apply (collect_loop_NoDup new [] Hnd).
Qed.

End CollectValues.
